(** * percy-cli client utilities: pool, retry and request

    A shallow embedding of [packages/client/src/utils.js]: the concurrency
    pool ([pool]), the retry engine ([retry]) and the HTTP request
    orchestrator ([request]), with the properties the specification states
    about them.

    JavaScript runs one callback at a time, to completion.  Each callback of
    the source (a promise handler, a timer, a stream listener) is therefore a
    function on an explicit state, and a run is a sequence of such callbacks
    chosen by the environment. *)

From Stdlib Require Import ZArith Ascii String.
From stdpp Require Import base option list strings pretty gmap.

Set Warnings "-register-all".
Local Open Scope Z_scope.

(** ** JavaScript values *)

Module Js.

(** The values the embedded functions inspect.  A number is kept as an exact
    decimal [mantissa * 10 ^ exponent]; a [Buffer] is its bytes; a string is
    the UTF-8 bytes of its text.  Functions are no values here: where the
    source takes one (the callback of [request]) the model has a type for
    it. *)
Inductive JsVal : Type :=
| JUndefined
| JNull
| JBool (b : bool)
| JNum (mantissa exponent : Z)
| JStr (s : string)
| JArr (items : list JsVal)
| JObj (props : list (string * JsVal))
| JBuffer (bytes : string).

(** [ToBoolean]: what [if (v)], [!v] and [v || w] test. *)
Definition truthy (v : JsVal) : bool :=
  match v with
  | JUndefined | JNull => false
  | JBool b => b
  | JNum m _ => negb (m =? 0)
  | JStr s => negb (String.eqb s "")
  | JArr _ | JObj _ | JBuffer _ => true
  end.

(** [typeof v === 'string'] *)
Definition is_string (v : JsVal) : bool :=
  match v with JStr _ => true | _ => false end.

(** [v === undefined], [v === true] and [v === 'text']; the source compares
    with these primitives only. *)
Definition is_undefined (v : JsVal) : bool :=
  match v with JUndefined => true | _ => false end.

Definition is_true (v : JsVal) : bool :=
  match v with JBool true => true | _ => false end.

Definition is_text (t : string) (v : JsVal) : bool :=
  match v with JStr s => String.eqb s t | _ => false end.

(** [v ?? w], [v || w] and [v && w] *)
Definition nullish (v w : JsVal) : JsVal :=
  match v with JUndefined | JNull => w | _ => v end.

Definition js_or (v w : JsVal) : JsVal := if truthy v then v else w.

Definition js_and (v w : JsVal) : JsVal := if truthy v then w else v.

(** [o.key] on a value: the last binding of an object, [undefined] on
    anything else the source reads a property of. *)
Fixpoint lookup_last (key : string) (props : list (string * JsVal))
  : option JsVal :=
  match props with
  | [] => None
  | (k, v) :: rest =>
      match lookup_last key rest with
      | Some w => Some w
      | None => if String.eqb k key then Some v else None
      end
  end.

Definition prop (key : string) (v : JsVal) : JsVal :=
  match v with
  | JObj props => default JUndefined (lookup_last key props)
  | _ => JUndefined
  end.

End Js.
Import Js.

(** ** The concurrency pool

    The generator is taken to yield promises and not to throw, so that the
    handler of a fulfilment does not throw and the handler given to [catch]
    runs for the rejected promises only.  What it has yet to yield is a
    list; how each promise settles is part of the promise, and when it does
    is up to the run. *)

Module Pool.

(** How a promise yielded by the generator will settle. *)
Inductive Outcome : Type :=
| Fulfils (value : JsVal)
| Rejects (error : JsVal).

(** A generated promise: a label to tell the promises of a run apart, and
    its outcome. *)
Record Promise : Type := mkPromise { label : nat; outcome : Outcome }.

(** The pool's own promise. *)
Inductive Settlement : Type :=
| Resolved (ret : list JsVal)
| Rejected (err : JsVal).

(** The closure of one [pool] call.  [iterator] is what the generator has
    yet to yield; [queue], [ret] and [err] are the source's variables;
    [settled] is the state of the returned promise; [inflight] holds the
    promises whose handlers are attached and have not run.  [finished],
    [discarded] and [queue_log] are there for the statements only: the
    promises whose handlers ran, oldest first; the promises that were taken
    from the generator and dropped; and every value [queue] was given. *)
Record State : Type := mkState {
  iterator : list Promise;
  queue : Z;
  ret : list JsVal;
  err : JsVal;
  settled : option Settlement;
  inflight : list Promise;
  finished : list Promise;
  discarded : list Promise;
  queue_log : list Z
}.

Definition initial (generated : list Promise) : State :=
  {| iterator := generated; queue := 0; ret := []; err := JUndefined;
     settled := None; inflight := []; finished := [];
     discarded := []; queue_log := [0] |}.

(** A promise settles once: [resolve] and [reject] on a settled promise do
    nothing. *)
Definition settle (o : Settlement) (st : State) : State :=
  match settled st with
  | Some _ => st
  | None =>
      {| iterator := iterator st; queue := queue st; ret := ret st;
         err := err st; settled := Some o; inflight := inflight st;
         finished := finished st; discarded := discarded st;
         queue_log := queue_log st |}
  end.

Definition set_iterator (it : list Promise) (st : State) : State :=
  {| iterator := it; queue := queue st; ret := ret st; err := err st;
     settled := settled st; inflight := inflight st;
     finished := finished st; discarded := discarded st;
         queue_log := queue_log st |}.

Definition set_queue (q : Z) (st : State) : State :=
  {| iterator := iterator st; queue := q; ret := ret st; err := err st;
     settled := settled st; inflight := inflight st;
     finished := finished st; discarded := discarded st;
     queue_log := queue_log st ++ [q] |}.

(** [if (!queue && err) reject(err); if (!queue) resolve(ret); return;] *)
Definition finish (st : State) : State :=
  let st1 :=
    if (queue st =? 0) && truthy (err st)
    then settle (Rejected (err st)) st else st in
  if queue st1 =? 0 then settle (Resolved (ret st1)) st1 else st1.

(** [queue++; promise.then(...).catch(...)] *)
Definition launch (p : Promise) (st : State) : State :=
  let st1 := set_queue (queue st + 1) st in
  {| iterator := iterator st1; queue := queue st1; ret := ret st1;
     err := err st1; settled := settled st1;
     inflight := inflight st1 ++ [p];
     finished := finished st1; discarded := discarded st1;
     queue_log := queue_log st1 |}.

(** A promise taken from the generator on which nothing is done. *)
Definition discard (p : Promise) (st : State) : State :=
  {| iterator := iterator st; queue := queue st; ret := ret st;
     err := err st; settled := settled st; inflight := inflight st;
     finished := finished st; discarded := discarded st ++ [p];
     queue_log := queue_log st |}.

(** The [while] loop of [proceed]; every turn takes one [iterator.next()],
    so the loop is a recursion on what the generator has left. *)
Fixpoint proceed_from (concurrency : Z) (it : list Promise) (st : State)
  : State :=
  if queue st <? concurrency then
    match it with
    | [] => finish (set_iterator [] st)
    | promise :: rest =>
        let st1 := set_iterator rest st in
        if truthy (err st1) then finish (discard promise st1)
        else proceed_from concurrency rest (launch promise st1)
    end
  else st.

Definition proceed (concurrency : Z) (st : State) : State :=
  proceed_from concurrency (iterator st) st.

(** The handlers attached to a promise: [queue--], then [ret.push(value)]
    or [err = error], then [proceed()]. *)
Definition handler (concurrency : Z) (p : Promise) (st : State) : State :=
  let st1 := set_queue (queue st - 1) st in
  let st2 :=
    match outcome p with
    | Fulfils value =>
        {| iterator := iterator st1; queue := queue st1;
           ret := ret st1 ++ [value]; err := err st1;
           settled := settled st1; inflight := inflight st1;
           finished := finished st1 ++ [p];
           discarded := discarded st1; queue_log := queue_log st1 |}
    | Rejects error =>
        {| iterator := iterator st1; queue := queue st1;
           ret := ret st1; err := error;
           settled := settled st1; inflight := inflight st1;
           finished := finished st1 ++ [p];
           discarded := discarded st1; queue_log := queue_log st1 |}
    end in
  proceed concurrency st2.

(** The [i]-th promise in flight settles and its handler runs. *)
Definition on_settle (concurrency : Z) (i : nat) (st : State)
  : option State :=
  match inflight st !! i with
  | None => None
  | Some p =>
      Some (handler concurrency p
              {| iterator := iterator st; queue := queue st; ret := ret st;
                 err := err st; settled := settled st;
                 inflight := delete i (inflight st);
                 finished := finished st; discarded := discarded st;
         queue_log := queue_log st |})
  end.

(** [pool(generator, context, concurrency)]: the state when the call
    returns, after the first [proceed()]. *)
Definition pool (generated : list Promise) (concurrency : Z) : State :=
  proceed concurrency (initial generated).

(** One step of a run: some promise in flight settles. *)
Inductive step (concurrency : Z) : State -> State -> Prop :=
| step_settle i st st' :
    on_settle concurrency i st = Some st' -> step concurrency st st'.

(** [steps n st k st']: a run from [st] in which [k] promises settle ends
    in [st']. *)
Inductive steps (concurrency : Z) (st : State) : nat -> State -> Prop :=
| steps_here : steps concurrency st 0 st
| steps_more k st' st'' :
    steps concurrency st k st' -> step concurrency st' st'' ->
    steps concurrency st (S k) st''.

Definition reachable (generated : list Promise) (concurrency : Z)
    (st : State) : Prop :=
  exists k, steps concurrency (pool generated concurrency) k st.

(** A run given by the positions, in [inflight], of the promises that
    settle. *)
Fixpoint run (concurrency : Z) (schedule : list nat) (st : State)
  : option State :=
  match schedule with
  | [] => Some st
  | i :: rest =>
      match on_settle concurrency i st with
      | Some st' => run concurrency rest st'
      | None => None
      end
  end.

(** The errors of the promises that rejected, oldest first, and the last of
    them ([undefined] when there is none). *)
Definition error_of (p : Promise) : option JsVal :=
  match outcome p with Rejects e => Some e | Fulfils _ => None end.

Definition value_of (p : Promise) : option JsVal :=
  match outcome p with Fulfils v => Some v | Rejects _ => None end.

Definition errors (ps : list Promise) : list JsVal := omap error_of ps.
Definition values (ps : list Promise) : list JsVal := omap value_of ps.

Definition last_error (ps : list Promise) : JsVal :=
  default JUndefined (last (errors ps)).

Definition succeeds (p : Promise) : Prop :=
  exists v, outcome p = Fulfils v.

(** What the pool's promise settles to, read off the closure: the test of
    [finish] on [err]. *)
Definition verdict (st : State) : Settlement :=
  if truthy (err st) then Rejected (err st) else Resolved (ret st).

(** What holds of the closure whenever a callback of the pool starts or
    ends. *)
Record consistent (concurrency : Z) (generated : list Promise) (st : State)
  : Prop := {
  c_queue : queue st = Z.of_nat (length (inflight st));
  c_bound : queue st <= Z.max 0 concurrency;
  c_log : Forall (fun q => 0 <= q <= Z.max 0 concurrency) (queue_log st);
  c_err : err st = last_error (finished st);
  c_ret : ret st = values (finished st);
  c_all : generated ≡ₚ
            finished st ++ inflight st ++ discarded st ++ iterator st;
  c_settled : forall o, settled st = Some o ->
                inflight st = [] /\ o = verdict st /\
                (truthy (err st) = false -> iterator st = [])
}.

End Pool.

(** ** The retry engine *)

Module Retry.

(** The second argument of [retry]; [None] is a property left
    [undefined]. *)
Record Options : Type := mkOptions {
  opt_retries : option Z;
  opt_interval : option Z
}.

Section Engine.

(** What the operation resolves with, and what it fails with. *)
Context {V E : Type}.

(** The promise [retry] returns. *)
Inductive Settlement : Type :=
| Resolved (value : V)
| Rejected (error : E).

(** One call of the operation: when it was asked for (the time of the
    retry signal that set its timer) and when it ran.  Kept for the
    statements. *)
Record Attempt : Type := mkAttempt { asked_at : Z; ran_at : Z }.

(** The closure of one [retry] call.  [retries] and [interval] are the
    source's variables; [timers] holds, oldest first, the times at which
    the pending [setTimeout(run, interval)] were set; [now] is the
    clock. *)
Record State : Type := mkState {
  retries : Z;
  interval : Z;
  settled : option Settlement;
  timers : list Z;
  now : Z;
  attempts : list Attempt
}.

(** [resolve] and [reject] of the returned promise: the first call
    wins. *)
Definition settle (o : Settlement) (st : State) : State :=
  match settled st with
  | Some _ => st
  | None =>
      {| retries := retries st; interval := interval st;
         settled := Some o; timers := timers st; now := now st;
         attempts := attempts st |}
  end.

Definition resolve (value : V) (st : State) : State :=
  settle (Resolved value) st.

Definition reject (error : E) (st : State) : State :=
  settle (Rejected error) st.

(** [run]: the operation is called. *)
Definition run (asked : Z) (st : State) : State :=
  {| retries := retries st; interval := interval st;
     settled := settled st; timers := timers st; now := now st;
     attempts := attempts st ++ [mkAttempt asked (now st)] |}.

(** The source's inner [retry], the signal handed to the operation:
    [if (retries-- > 0) setTimeout(run, interval); else reject(err);] *)
Definition retry_signal (err : E) (st : State) : State :=
  let st1 :=
    {| retries := retries st - 1; interval := interval st;
       settled := settled st; timers := timers st; now := now st;
       attempts := attempts st |} in
  if retries st >? 0 then
    {| retries := retries st1; interval := interval st1;
       settled := settled st1; timers := timers st1 ++ [now st1];
       now := now st1; attempts := attempts st1 |}
  else reject err st1.

(** [retry(fn, { retries = 5, interval = 50 })]: the state when the call
    returns, the operation having been called once. *)
Definition retry (options : Options) : State :=
  run 0 {| retries := default 5 (opt_retries options);
           interval := default 50 (opt_interval options);
           settled := None; timers := []; now := 0; attempts := [] |}.

(** What can happen next: time passes, the oldest timer fires, or the
    operation calls one of the three functions it was given. *)
Inductive Event : Type :=
| Elapse (d : Z)
| Timeout
| Resolve (value : V)
| Reject (error : E)
| Retry (err : E).

(** A timer fires no earlier than [interval] after it was set. *)
Definition step (ev : Event) (st : State) : option State :=
  match ev with
  | Elapse d =>
      if 0 <=? d then
        Some {| retries := retries st; interval := interval st;
                settled := settled st; timers := timers st;
                now := now st + d; attempts := attempts st |}
      else None
  | Timeout =>
      match timers st with
      | [] => None
      | asked :: rest =>
          if asked + interval st <=? now st then
            Some (run asked
                    {| retries := retries st; interval := interval st;
                       settled := settled st; timers := rest;
                       now := now st; attempts := attempts st |})
          else None
      end
  | Resolve value => Some (resolve value st)
  | Reject error => Some (reject error st)
  | Retry err => Some (retry_signal err st)
  end.

Fixpoint exec (events : list Event) (st : State) : option State :=
  match events with
  | [] => Some st
  | ev :: rest =>
      match step ev st with
      | Some st' => exec rest st'
      | None => None
      end
  end.

(** The errors passed to the retry signal, oldest first. *)
Definition asked (events : list Event) : list E :=
  omap (fun ev => match ev with Retry err => Some err | _ => None end)
       events.

(** The operation only ever asks for another attempt. *)
Definition only_retries (events : list Event) : Prop :=
  Forall (fun ev => match ev with
                    | Resolve _ | Reject _ => False
                    | _ => True
                    end) events.

(** The operation asks for another attempt only when no timer is pending:
    every call of it gives the retry signal once at most. *)
Fixpoint orderly (events : list Event) (st : State) : Prop :=
  match events with
  | [] => True
  | ev :: rest =>
      match ev with Retry _ => timers st = [] | _ => True end /\
      match step ev st with
      | Some st' => orderly rest st'
      | None => True
      end
  end.

(** Each call ran at least [i] after the call before it. *)
Fixpoint spaced (i : Z) (calls : list Attempt) : Prop :=
  match calls with
  | a :: (b :: _) as later => ran_at a + i <= ran_at b /\ spaced i later
  | _ => True
  end.

(** What an orderly run keeps: one timer at most, set after the last call;
    no call ahead of the clock; the calls spaced. *)
Record paced (i : Z) (st : State) : Prop := {
  p_interval : interval st = i;
  p_clock : Forall (fun a => ran_at a <= now st) (attempts st);
  p_timer : match timers st with
            | [] => True
            | [t] => forall a, last (attempts st) = Some a -> ran_at a <= t
            | _ => False
            end;
  p_spaced : spaced i (attempts st)
}.

(** What every run keeps: the interval; the budget, which together with
    the calls made and the timers pending adds up to one more than the
    budget at the start; the wait before every call but the first. *)
Record within (R i : Z) (st : State) : Prop := {
  w_interval : interval st = i;
  w_budget : Z.of_nat (length (attempts st) + length (timers st))
             + Z.max 0 (retries st) = R + 1;
  w_called : attempts st <> [];
  w_waited : Forall (fun a => asked_at a + i <= ran_at a)
                    (tail (attempts st))
}.

End Engine.

Arguments Settlement : clear implicits.
Arguments State : clear implicits.
Arguments Event : clear implicits.

End Retry.

(** ** JSON text

    [JSON.parse] and [JSON.stringify] belong to the platform; what follows is
    their grammar (ECMA-404) over the values above. *)

Module Json.

Definition quote : ascii := "034"%char.
Definition backslash : ascii := "092"%char.

Definition code (c : ascii) : Z := Z.of_nat (nat_of_ascii c).
Definition char (n : Z) : ascii := ascii_of_nat (Z.to_nat n).

Definition is_ws (c : ascii) : bool :=
  (code c =? 32) || (code c =? 9) || (code c =? 10) || (code c =? 13).

Fixpoint skip_ws (s : list ascii) : list ascii :=
  match s with
  | c :: r => if is_ws c then skip_ws r else s
  | [] => []
  end.

(** [strip word s]: what follows [word] at the head of [s]. *)
Fixpoint strip (word s : list ascii) : option (list ascii) :=
  match word with
  | [] => Some s
  | c :: word' =>
      match s with
      | d :: s' => if Ascii.eqb c d then strip word' s' else None
      | [] => None
      end
  end.

Definition digit (c : ascii) : option Z :=
  let n := code c in
  if (48 <=? n) && (n <=? 57) then Some (n - 48) else None.

Definition hex (c : ascii) : option Z :=
  let n := code c in
  if (48 <=? n) && (n <=? 57) then Some (n - 48)
  else if (97 <=? n) && (n <=? 102) then Some (n - 87)
  else if (65 <=? n) && (n <=? 70) then Some (n - 55)
  else None.

(** A run of digits read into [acc]; [count] counts them. *)
Fixpoint digits (acc count : Z) (s : list ascii) : Z * Z * list ascii :=
  match s with
  | c :: r =>
      match digit c with
      | Some d => digits (acc * 10 + d) (count + 1) r
      | None => (acc, count, s)
      end
  | [] => (acc, count, [])
  end.

(** The UTF-8 bytes of a code point. *)
Definition utf8 (n : Z) : list ascii :=
  if n <? 128 then [char n]
  else if n <? 2048 then [char (192 + n / 64); char (128 + n mod 64)]
  else if n <? 65536 then
    [char (224 + n / 4096); char (128 + (n / 64) mod 64);
     char (128 + n mod 64)]
  else
    [char (240 + n / 262144); char (128 + (n / 4096) mod 64);
     char (128 + (n / 64) mod 64); char (128 + n mod 64)].

Definition unit4 (a b c d : ascii) : option Z :=
  match hex a, hex b, hex c, hex d with
  | Some x, Some y, Some z, Some w => Some (((x * 16 + y) * 16 + z) * 16 + w)
  | _, _, _, _ => None
  end.

Definition escaped (e : ascii) : option ascii :=
  if Ascii.eqb e quote then Some quote
  else if Ascii.eqb e backslash then Some backslash
  else if Ascii.eqb e "/" then Some "/"%char
  else if Ascii.eqb e "b" then Some (char 8)
  else if Ascii.eqb e "f" then Some (char 12)
  else if Ascii.eqb e "n" then Some (char 10)
  else if Ascii.eqb e "r" then Some (char 13)
  else if Ascii.eqb e "t" then Some (char 9)
  else None.

Definition prepend {A} (pre : list A) (res : option (list A * list ascii))
  : option (list A * list ascii) :=
  match res with
  | Some (t, r) => Some (pre ++ t, r)
  | None => None
  end.

(** The second half of a surrogate pair at the head of [s], if [hi] is a
    first half: the code point of the pair. *)
Definition paired (hi : Z) (b u l1 l2 l3 l4 : ascii) : option Z :=
  if (55296 <=? hi) && (hi <? 56320)
     && Ascii.eqb b backslash && Ascii.eqb u "u"
  then
    match unit4 l1 l2 l3 l4 with
    | Some lo =>
        if (56320 <=? lo) && (lo <? 57344)
        then Some (65536 + (hi - 55296) * 1024 + (lo - 56320))
        else None
    | None => None
    end
  else None.

(** The characters of a string, after its opening quote. *)
Fixpoint chars (s : list ascii) : option (list ascii * list ascii) :=
  match s with
  | [] => None
  | c :: r =>
      if Ascii.eqb c quote then Some ([], r)
      else if Ascii.eqb c backslash then
        match r with
        | [] => None
        | e :: r1 =>
            if Ascii.eqb e "u" then
              match r1 with
              | h1 :: h2 :: h3 :: h4 :: r2 =>
                  match unit4 h1 h2 h3 h4 with
                  | None => None
                  | Some hi =>
                      match r2 with
                      | b :: u :: l1 :: l2 :: l3 :: l4 :: r3 =>
                          match paired hi b u l1 l2 l3 l4 with
                          | Some n => prepend (utf8 n) (chars r3)
                          | None => prepend (utf8 hi) (chars r2)
                          end
                      | _ => prepend (utf8 hi) (chars r2)
                      end
                  end
              | _ => None
              end
            else
              match escaped e with
              | Some x => prepend [x] (chars r1)
              | None => None
              end
        end
      else if code c <? 32 then None
      else prepend [c] (chars r)
  end.

(** A number: sign, integer part, fraction, exponent. *)
Definition number (s : list ascii) : option (JsVal * list ascii) :=
  let '(sign, s1) :=
    match s with
    | c :: r => if Ascii.eqb c "-" then (-1, r) else (1, s)
    | [] => (1, s)
    end in
  match s1 with
  | [] => None
  | c :: r =>
      match digit c with
      | None => None
      | Some d =>
          let '(int, _, s2) := if d =? 0 then (0, 0, r) else digits d 1 r in
          let fraction :=
            match s2 with
            | dot :: r2 =>
                if Ascii.eqb dot "." then
                  let '(m, n, s3) := digits int 0 r2 in
                  if n =? 0 then None else Some (m, n, s3)
                else Some (int, 0, s2)
            | [] => Some (int, 0, s2)
            end in
          match fraction with
          | None => None
          | Some (m, n, s3) =>
              match s3 with
              | e :: r3 =>
                  if Ascii.eqb e "e" || Ascii.eqb e "E" then
                    let '(esign, r4) :=
                      match r3 with
                      | x :: r' =>
                          if Ascii.eqb x "+" then (1, r')
                          else if Ascii.eqb x "-" then (-1, r')
                          else (1, r3)
                      | [] => (1, r3)
                      end in
                    let '(x, k, s4) := digits 0 0 r4 in
                    if k =? 0 then None
                    else Some (JNum (sign * m) (esign * x - n), s4)
                  else Some (JNum (sign * m) (- n), s3)
              | [] => Some (JNum (sign * m) (- n), s3)
              end
          end
      end
  end.

Definition word (text : string) : list ascii := list_ascii_of_string text.

(** A value, the elements of an array after its bracket, the members of an
    object after its brace.  [fuel] bounds the calls; see [JSON_parse]. *)
Fixpoint value (fuel : nat) (s : list ascii) {struct fuel}
  : option (JsVal * list ascii) :=
  match fuel with
  | O => None
  | S fuel =>
      match skip_ws s with
      | [] => None
      | c :: r =>
          if Ascii.eqb c quote then
            match chars r with
            | Some (t, r') => Some (JStr (string_of_list_ascii t), r')
            | None => None
            end
          else if Ascii.eqb c "[" then
            match skip_ws r with
            | [] => None
            | c' :: r' =>
                if Ascii.eqb c' "]" then Some (JArr [], r')
                else
                  match elements fuel r with
                  | Some (vs, r'') => Some (JArr vs, r'')
                  | None => None
                  end
            end
          else if Ascii.eqb c "{" then
            match skip_ws r with
            | [] => None
            | c' :: r' =>
                if Ascii.eqb c' "}" then Some (JObj [], r')
                else
                  match members fuel r with
                  | Some (ms, r'') => Some (JObj ms, r'')
                  | None => None
                  end
            end
          else
            match strip (word "null") (c :: r) with
            | Some r' => Some (JNull, r')
            | None =>
                match strip (word "true") (c :: r) with
                | Some r' => Some (JBool true, r')
                | None =>
                    match strip (word "false") (c :: r) with
                    | Some r' => Some (JBool false, r')
                    | None => number (c :: r)
                    end
                end
            end
      end
  end
with elements (fuel : nat) (s : list ascii) {struct fuel}
  : option (list JsVal * list ascii) :=
  match fuel with
  | O => None
  | S fuel =>
      match value fuel s with
      | None => None
      | Some (v, r) =>
          match skip_ws r with
          | [] => None
          | c :: r' =>
              if Ascii.eqb c "," then prepend [v] (elements fuel r')
              else if Ascii.eqb c "]" then Some ([v], r')
              else None
          end
      end
  end
with members (fuel : nat) (s : list ascii) {struct fuel}
  : option (list (string * JsVal) * list ascii) :=
  match fuel with
  | O => None
  | S fuel =>
      match skip_ws s with
      | [] => None
      | c :: r =>
          if Ascii.eqb c quote then
            match chars r with
            | None => None
            | Some (k, r1) =>
                match skip_ws r1 with
                | [] => None
                | colon :: r2 =>
                    if Ascii.eqb colon ":" then
                      match value fuel r2 with
                      | None => None
                      | Some (v, r3) =>
                          let member := (string_of_list_ascii k, v) in
                          match skip_ws r3 with
                          | [] => None
                          | c' :: r4 =>
                              if Ascii.eqb c' ","
                              then prepend [member] (members fuel r4)
                              else if Ascii.eqb c' "}"
                              then Some ([member], r4)
                              else None
                          end
                      end
                    else None
                end
            end
          else None
      end
  end.

(** [JSON.parse(text)]: [None] when it throws.  No call of the three
    functions above is made before a character is read since the call
    before the last, so twice the length of the text is fuel enough. *)
Definition JSON_parse (text : string) : option JsVal :=
  let s := list_ascii_of_string text in
  match value (2 * length s + 2) s with
  | Some (v, r) =>
      match skip_ws r with
      | [] => Some v
      | _ :: _ => None
      end
  | None => None
  end.

Definition hex_digit (n : Z) : ascii :=
  if n <? 10 then char (48 + n) else char (87 + n).

Definition escape (c : ascii) : list ascii :=
  if Ascii.eqb c quote then [backslash; quote]
  else if Ascii.eqb c backslash then [backslash; backslash]
  else if code c =? 8 then [backslash; "b"%char]
  else if code c =? 12 then [backslash; "f"%char]
  else if code c =? 10 then [backslash; "n"%char]
  else if code c =? 13 then [backslash; "r"%char]
  else if code c =? 9 then [backslash; "t"%char]
  else if code c <? 32 then
    [backslash; "u"%char; "0"%char; "0"%char;
     hex_digit (code c / 16); hex_digit (code c mod 16)]
  else [c].

Definition quoted (text : string) : string :=
  string_of_list_ascii
    (quote :: flat_map escape (list_ascii_of_string text) ++ [quote]).

(** A number that is not an integer is written with its exponent, a
    literal of the same value as the one the platform chooses. *)
Definition number_text (m e : Z) : string :=
  if e =? 0 then pretty m else pretty m +:+ "e" +:+ pretty e.

Definition bytes_text (bytes : string) : string :=
  String.concat "," (map (fun c => pretty (code c))
                         (list_ascii_of_string bytes)).

(** [JSON.stringify(v)]: [None] when it returns [undefined]. *)
Fixpoint JSON_stringify (v : JsVal) : option string :=
  match v with
  | JUndefined => None
  | JNull => Some "null"
  | JBool b => Some (if b then "true" else "false")
  | JNum m e => Some (number_text m e)
  | JStr text => Some (quoted text)
  | JArr items =>
      Some ("[" +:+
            String.concat ","
              (map (fun x => default "null" (JSON_stringify x)) items)
            +:+ "]")
  | JObj props =>
      Some ("{" +:+
            String.concat ","
              (omap (fun kv =>
                       match kv with
                       | (k, x) =>
                           match JSON_stringify x with
                           | Some t => Some (quoted k +:+ ":" +:+ t)
                           | None => None
                           end
                       end) props)
            +:+ "}")
  | JBuffer bytes =>
      Some ("{" +:+ quoted "type" +:+ ":" +:+ quoted "Buffer" +:+ ","
            +:+ quoted "data" +:+ ":[" +:+ bytes_text bytes +:+ "]}")
  end.

End Json.

(** ** The HTTP request orchestrator *)

Module Request.
Import Json.

(** A header object: names to values.  The order of its properties is not
    kept. *)
Abbreviation Headers := (gmap string string).

(** What the source reads of an incoming message [res]. *)
Record Res : Type := mkRes {
  statusCode : Z;
  statusMessage : string;
  res_headers : Headers
}.

(** The [response] object attached to an error:
    [{ statusCode, headers, body }]. *)
Record Response : Type := mkResponse {
  response_statusCode : Z;
  response_headers : Headers;
  response_body : JsVal
}.

(** An error object, by the properties the source reads or writes; [name]
    and [message] tell the errors of a run apart. *)
Record Error : Type := mkError {
  name : string;
  message : JsVal;
  code : JsVal;
  response : option Response
}.

(** What a [throw] throws: an error, or [null] or [undefined], to which no
    property can be assigned. *)
Inductive Thrown : Type :=
| ThrownError (error : Error)
| ThrownNullish.

(** The callback, awaited: the value it gives or what it throws. *)
Inductive Completion : Type :=
| Returns (value : JsVal)
| Throws (thrown : Thrown).

Definition Callback : Type := JsVal -> Res -> Completion.

(** The [options] object.  [None] and [JUndefined] stand for a property
    that is absent; [agent] and [rest] are the [...requestOptions]. *)
Record Options : Type := mkOptions {
  body : JsVal;
  headers : option Headers;
  retries : option Z;
  retryNotFound : JsVal;
  interval : option Z;
  noProxy : JsVal;
  buffer : JsVal;
  agent : JsVal;
  rest : list (string * JsVal)
}.

(** [{}] *)
Definition empty_options : Options :=
  {| body := JUndefined; headers := None; retries := None;
     retryNotFound := JUndefined; interval := None; noProxy := JUndefined;
     buffer := JUndefined; agent := JUndefined; rest := [] |}.

(** The second argument of [request]: left out, an object or a
    function. *)
Inductive OptionsArgument : Type :=
| NoOptions
| OptionsObject (options : Options)
| OptionsFunction (callback : Callback).

(** The parts of [new URL(url)]. *)
Record URL : Type := mkURL {
  protocol : string;
  hostname : string;
  port : string;
  pathname : string;
  search : string;
  hash : string
}.

(** [requestOptions] after [Object.assign]. *)
Record RequestOptions : Type := mkRequestOptions {
  request_agent : JsVal;
  request_path : string;
  request_protocol : string;
  request_hostname : string;
  request_headers : option Headers;
  request_port : string;
  request_rest : list (string * JsVal)
}.

(** Used by the request util when retrying specific errors *)
Definition RETRY_ERROR_CODES : list string :=
  [ "ECONNREFUSED"; "ECONNRESET"; "EPIPE"; "EHOSTUNREACH"; "EAI_AGAIN" ].

(** What one [request] call has set up when it reaches [retry]: the module
    imported for the transport, its options, the body given to [req.end],
    the variables the attempts close over, and the retry engine. *)
Record Prepared : Type := mkPrepared {
  http : string;
  requestOptions : RequestOptions;
  payload : JsVal;
  closed_retryNotFound : JsVal;
  closed_buffer : JsVal;
  closed_callback : option Callback;
  engine : Retry.State JsVal Error
}.

(** [if (typeof options === 'function') [options, callback] = [{}, options];]
    with the default [options = {}]. *)
Definition arguments (options : OptionsArgument) (callback : option Callback)
  : Options * option Callback :=
  match options with
  | NoOptions => (empty_options, callback)
  | OptionsObject o => (o, callback)
  | OptionsFunction f => (empty_options, Some f)
  end.

(** [{ 'Content-Type': 'application/json', ...headers }]: the properties of
    [headers] come last and win. *)
Definition with_json_content_type (headers : option Headers) : Headers :=
  default ∅ headers ∪ {[ "Content-Type" := "application/json" ]}.

(** automatically stringify body content *)
Definition stringify_body (body : JsVal) (headers : option Headers)
  : JsVal * option Headers :=
  if negb (is_undefined body) && negb (is_string body) then
    (match JSON_stringify body with
     | Some text => JStr text
     | None => JUndefined
     end,
     Some (with_json_content_type headers))
  else (body, headers).

Section Orchestrator.

(** The platform's [new URL(url)], [None] when it throws, and
    [proxyAgentFor] of [proxy.js]: an agent, or [undefined]. *)
Variable new_URL : string -> option URL.
Variable proxyAgentFor : string -> JsVal.

(** [requestOptions.agent || (!noProxy && proxyAgentFor(url)) || null] *)
Definition resolve_agent (url : string) (o : Options) : JsVal :=
  js_or (js_or (agent o)
               (js_and (JBool (negb (truthy (noProxy o))))
                       (proxyAgentFor url)))
        JNull.

(** [request(url, options, callback)] up to the call of [retry]; [None]
    when [new URL] throws. *)
Definition request (url : string) (options : OptionsArgument)
    (callback : option Callback) : option Prepared :=
  let '(o, callback) := arguments options callback in
  match new_URL url with
  | None => None
  | Some u =>
      let '(body, headers) := stringify_body (body o) (headers o) in
      Some {| http := if String.eqb (protocol u) "https:"
                      then "https" else "http";
              requestOptions :=
                {| request_agent := resolve_agent url o;
                   request_path := pathname u +:+ search u +:+ hash u;
                   request_protocol := protocol u;
                   request_hostname := hostname u;
                   request_headers := headers;
                   request_port := port u;
                   request_rest := rest o |};
              payload := body;
              closed_retryNotFound := retryNotFound o;
              closed_buffer := buffer o;
              closed_callback := callback;
              engine := Retry.retry
                          (Retry.mkOptions (retries o) (interval o)) |}
  end.

End Orchestrator.

(** *** One attempt *)

(** What an attempt tells the retry engine. *)
Abbreviation Signal := (Retry.Event JsVal Error).

(** The closure of one call of the operation: the [handled] mark of
    [handleError], and the message and the [chunks] of [handleResponse]
    once there is a response. *)
Record Attempt : Type := mkAttempt {
  handled : bool;
  incoming : option (Res * list string)
}.

Definition fresh : Attempt := {| handled := false; incoming := None |}.

(** maybe retry 404s, always retry 500s, or retry specific errors *)
Definition shouldRetry (retryNotFound : JsVal) (error : Error) : bool :=
  match response error with
  | Some r =>
      (truthy retryNotFound && (response_statusCode r =? 404))
      || ((500 <=? response_statusCode r) && (response_statusCode r <? 600))
  | None =>
      truthy (code error)
      && existsb (fun c => is_text c (code error)) RETRY_ERROR_CODES
  end.

Definition handleError (retryNotFound : JsVal) (error : Error)
    (st : Attempt) : Attempt * option Signal :=
  if handled st then (st, None)
  else
    ({| handled := true; incoming := incoming st |},
     Some (if shouldRetry retryNotFound error
           then Retry.Retry error else Retry.Reject error)).

(** How the body was obtained, and the value the source's [body] holds:
    [raw = body.toString('utf-8')], [if (buffer !== true) body = raw],
    [try { body = JSON.parse(raw) } catch {}].  Text being kept as its UTF-8
    bytes, [toString('utf-8')] gives the bytes back (the bytes are taken to
    be UTF-8). *)
Inductive Decoded : Type :=
| Structured (value : JsVal)
| Text (raw : string)
| Bytes (bytes : string).

Definition decode (buffer : JsVal) (bytes : string) : Decoded :=
  let raw := bytes in
  let body := if negb (is_true buffer) then Text raw else Bytes bytes in
  match JSON_parse raw with
  | Some value => Structured value
  | None => body
  end.

Definition body_of (d : Decoded) : JsVal :=
  match d with
  | Structured value => value
  | Text raw => JStr raw
  | Bytes bytes => JBuffer bytes
  end.

(** [errors.find(e => e.detail)?.detail]; [None] when reading [e.detail]
    throws, [e] being [null] or [undefined]. *)
Fixpoint find_detail (errors : list JsVal) : option JsVal :=
  match errors with
  | [] => Some JUndefined
  | e :: others =>
      match e with
      | JUndefined | JNull => None
      | _ => if truthy (prop "detail" e) then Some (prop "detail" e)
             else find_detail others
      end
  end.

(** [body?.errors?.find(e => e.detail)?.detail]; [None] when it throws a
    [TypeError]. *)
Definition errors_detail (body : JsVal) : option JsVal :=
  match prop "errors" body with
  | JUndefined | JNull => Some JUndefined
  | JArr errors => find_detail errors
  | _ => None
  end.

Definition new_Error (message : JsVal) : Error :=
  {| name := "Error"; message := message; code := JUndefined;
     response := None |}.

Definition TypeError : Error :=
  {| name := "TypeError"; message := JUndefined; code := JUndefined;
     response := None |}.

(** The [try] block of [handleFinished]. *)
Definition finished_try (callback : option Callback) (body : JsVal)
    (raw : string) (res : Res) : Completion :=
  if (200 <=? statusCode res) && (statusCode res <? 300) then
    match callback with
    | None => Returns body
    | Some f =>
        match f body res with
        | Returns value => Returns (nullish value body)
        | Throws thrown => Throws thrown
        end
    end
  else
    match errors_detail body with
    | None => Throws (ThrownError TypeError)
    | Some err =>
        Throws (ThrownError
                  (new_Error
                     (js_or err
                         (JStr (pretty (statusCode res) +:+ " " +:+
                                (if String.eqb (statusMessage res) ""
                                 then raw else statusMessage res))))))
    end.

(** [handleFinished(body, res)].  The part after [await] is taken together
    with the part before it.  When [Object.assign(error, { response })]
    throws, the error handler is not reached. *)
Definition handleFinished (p : Prepared) (bytes : string) (res : Res)
    (st : Attempt) : Attempt * list Error * option Signal :=
  let raw := bytes in
  let body := body_of (decode (closed_buffer p) bytes) in
  match finished_try (closed_callback p) body raw res with
  | Returns value => (st, [], Some (Retry.Resolve value))
  | Throws ThrownNullish => (st, [], None)
  | Throws (ThrownError error) =>
      let response :=
        {| response_statusCode := statusCode res;
           response_headers := res_headers res;
           response_body := body |} in
      let error :=
        {| name := name error; message := message error;
           code := code error; response := Some response |} in
      let '(st', signal) := handleError (closed_retryNotFound p) error st in
      (st', [error], signal)
  end.

(** The events of the request [req] and of the message [res]. *)
Inductive Incoming : Type :=
| RequestError (error : Error)
| OnResponse (res : Res)
| OnData (chunk : string)
| OnEnd
| ResponseError (error : Error).

(** The listeners.  Besides the closure, the errors given to [handleError]
    and the signal sent to the retry engine, if any.  An event of a
    message that has not come is not an event of this attempt. *)
Definition listen (p : Prepared) (ev : Incoming) (st : Attempt)
  : option (Attempt * list Error * option Signal) :=
  match ev with
  | RequestError error =>
      let '(st', signal) := handleError (closed_retryNotFound p) error st in
      Some (st', [error], signal)
  | OnResponse res =>
      match incoming st with
      | Some _ => None
      | None =>
          Some ({| handled := handled st; incoming := Some (res, []) |},
                [], None)
      end
  | OnData chunk =>
      match incoming st with
      | None => None
      | Some (res, chunks) =>
          Some ({| handled := handled st;
                   incoming := Some (res, chunks ++ [chunk]) |}, [], None)
      end
  | OnEnd =>
      match incoming st with
      | None => None
      | Some (res, chunks) =>
          Some (handleFinished p (String.concat "" chunks) res st)
      end
  | ResponseError error =>
      match incoming st with
      | None => None
      | Some _ =>
          let '(st', signal) :=
            handleError (closed_retryNotFound p) error st in
          Some (st', [error], signal)
      end
  end.

(** The events of one attempt in turn: the closure at the end, every error
    given to [handleError] and every signal sent. *)
Fixpoint attempt (p : Prepared) (events : list Incoming) (st : Attempt)
  : option (Attempt * list Error * list Signal) :=
  match events with
  | [] => Some (st, [], [])
  | ev :: others =>
      match listen p ev st with
      | None => None
      | Some (st1, raised, signal) =>
          match attempt p others st1 with
          | None => None
          | Some (st2, raised', signals) =>
              Some (st2, raised ++ raised',
                    match signal with
                    | Some s => s :: signals
                    | None => signals
                    end)
          end
      end
  end.

(** The signals of [handleError]. *)
Definition is_failure (s : Signal) : bool :=
  match s with
  | Retry.Retry _ | Retry.Reject _ => true
  | _ => false
  end.

Definition answer (retryNotFound : JsVal) (error : Error) : Signal :=
  if shouldRetry retryNotFound error
  then Retry.Retry error else Retry.Reject error.

(** *** A request and its attempts *)

(** The retry engine of a request and the closure of every call of the
    operation, oldest first. *)
Record Run : Type := mkRun {
  retrying : Retry.State JsVal Error;
  closures : list Attempt
}.

Definition start (p : Prepared) : Run :=
  {| retrying := engine p; closures := [fresh] |}.

(** What can happen to a request: an event on the transport of its [k]-th
    attempt, time passing, a retry timer firing. *)
Inductive Happening : Type :=
| Transport (k : nat) (ev : Incoming)
| Clock (d : Z)
| TimerFires.

Definition happen (p : Prepared) (h : Happening) (r : Run) : option Run :=
  match h with
  | Transport k ev =>
      match closures r !! k with
      | None => None
      | Some st =>
          match listen p ev st with
          | None => None
          | Some (st', _, signal) =>
              match signal with
              | None =>
                  Some {| retrying := retrying r;
                          closures := <[k := st']> (closures r) |}
              | Some s =>
                  match Retry.step s (retrying r) with
                  | None => None
                  | Some e =>
                      Some {| retrying := e;
                              closures := <[k := st']> (closures r) |}
                  end
              end
          end
      end
  | Clock d =>
      match Retry.step (Retry.Elapse d) (retrying r) with
      | None => None
      | Some e => Some {| retrying := e; closures := closures r |}
      end
  | TimerFires =>
      match Retry.step Retry.Timeout (retrying r) with
      | None => None
      | Some e =>
          Some {| retrying := e; closures := closures r ++ [fresh] |}
      end
  end.

Fixpoint happenings (p : Prepared) (hs : list Happening) (r : Run)
  : option Run :=
  match hs with
  | [] => Some r
  | h :: rest =>
      match happen p h r with
      | Some r' => happenings p rest r'
      | None => None
      end
  end.

(** The [k]-th attempt gets a response with a status and a body in one
    chunk. *)
Definition answered (k : nat) (status : Z) (text : string)
  : list Happening :=
  [ Transport k (OnResponse (mkRes status "" ∅));
    Transport k (OnData text); Transport k OnEnd ].

End Request.

(** ** Query strings *)

Module Query.

Section Build.

(** The conversion of a value to text in a template literal, the
    platform's. *)
Variable ToString : JsVal -> string.

(** What one key of the object gives: for an array
    [obj[k].map(v => `${arrayKey}[${k}][]=${v}`).join('&')], for anything
    else [`${arrayKey}[${k}]=${obj[k]}`]. *)
Definition piece (arrayKey : JsVal) (k : string) (v : JsVal) : string :=
  match v with
  | JArr items =>
      String.concat "&"
        (map (fun v => ToString arrayKey +:+ "[" +:+ k +:+ "][]=" +:+
                       ToString v) items)
  | _ => ToString arrayKey +:+ "[" +:+ k +:+ "]=" +:+ ToString v
  end.

(** [buildQueryStringArrayFromObject(obj, arrayKey)]; [obj] is given by its
    properties in the order of [Object.keys]. *)
Definition buildQueryStringArrayFromObject (obj : list (string * JsVal))
    (arrayKey : JsVal) : string :=
  String.concat "&" (map (fun kv => piece arrayKey (fst kv) (snd kv)) obj).

End Build.

End Query.

(** ** The package description of a directory *)

Module Package.
Import Json.

(** An absolute path, by its segments from the root; the root is the empty
    list. *)
Definition Path : Type := list string.

(** What the file system holds at a path. *)
Inductive Node : Type :=
| File (content : string)
| Directory.

Abbreviation Files := (gmap (list string) Node).

(** The argument of [getPackageJSON]: a [file:] URL or a path. *)
Inductive Location : Type :=
| FileURL (path : Path)
| PathName (path : Path).

(** [if (rel.startsWith('file:')) rel = url.fileURLToPath(rel)] *)
Definition to_path (rel : Location) : Path :=
  match rel with
  | FileURL path => path
  | PathName path => path
  end.

(** [path.dirname]: the directory of the root is the root. *)
Definition dirname (p : Path) : Path := removelast p.

(** [path.join(rel, 'package.json')] *)
Definition package_json (rel : Path) : Path := rel ++ ["package.json"].

(** What a call gives: the parsed description, an exception (of
    [readFileSync] or of [JSON.parse]), or [undefined]. *)
Inductive Result : Type :=
| Found (pkg : JsVal)
| Throws
| Undefined.

(** The body of [getPackageJSON] on a path; [fuel] bounds the recursive
    calls, see [getPackageJSON]. *)
Fixpoint search (fs : Files) (home : Path) (fuel : nat) (rel : Path)
  : Result :=
  let pkg := package_json rel in
  match fs !! pkg with
  | Some (File content) =>
      match JSON_parse content with
      | Some v => Found v
      | None => Throws
      end
  | Some Directory => Throws
  | None =>
      let dir := dirname rel in
      if bool_decide (dir <> rel) && bool_decide (dir <> home) then
        match fuel with
        | S fuel => search fs home fuel dir
        | O => Undefined
        end
      else Undefined
  end.

(** [getPackageJSON(rel)] with the file system [fs] and [os.homedir()]
    [home].  Every call is on a shorter path, so the length of the path is
    fuel enough. *)
Definition getPackageJSON (fs : Files) (home : Path) (rel : Location)
  : Result :=
  search fs home (length (to_path rel)) (to_path rel).

(** Nothing describes a package in the directories from [rel] up to, and
    without, [d]. *)
Definition none_between (fs : Files) (d rel : Path) : Prop :=
  forall d', d `prefix_of` d' -> d' `prefix_of` rel -> d' <> d ->
    fs !! package_json d' = None.

(** The search from [rel] comes to [d]: [d] is [rel] or above it, and no
    directory from [d] up to below [rel] is the home directory. *)
Definition reached (home d rel : Path) : Prop :=
  d `prefix_of` rel /\
  forall d', d `prefix_of` d' -> d' `prefix_of` rel -> d' <> rel ->
    d' <> home.

(** What reading the description at a node gives. *)
Definition read (node : Node) : Result :=
  match node with
  | File content =>
      match JSON_parse content with
      | Some v => Found v
      | None => Throws
      end
  | Directory => Throws
  end.

End Package.

(** ** Runs used as examples *)

Module PoolExamples.
Import Pool.

Definition three_fulfilled : list Promise :=
  [ mkPromise 1 (Fulfils (JStr "a")); mkPromise 2 (Fulfils (JStr "b"));
    mkPromise 3 (Fulfils (JStr "c")) ].

(** Two promises, both in flight under a ceiling of two; the first
    rejects, then the second. *)
Definition two_rejected : list Promise :=
  [ mkPromise 1 (Rejects (JObj [("message", JStr "first")]));
    mkPromise 2 (Rejects (JObj [("message", JStr "second")])) ].

Definition after_two_rejected : State :=
  default (initial []) (run 2 [0; 0]%nat (pool two_rejected 2)).

(** A failure followed by a success under a ceiling of two, with two more
    promises left in the generator. *)
Definition failure_then_more : list Promise :=
  [ mkPromise 1 (Rejects (JObj [("message", JStr "failed")]));
    mkPromise 2 (Fulfils (JStr "late"));
    mkPromise 3 (Fulfils (JStr "never launched"));
    mkPromise 4 (Fulfils (JStr "never launched either")) ].

Definition after_failure : State :=
  default (initial []) (run 2 [0]%nat (pool failure_then_more 2)).

Definition after_failure_drained : State :=
  default (initial []) (on_settle 2 0 after_failure).

End PoolExamples.

Module RetryExamples.
Import Retry.

(** An operation that fails three times under a budget of two: called at
    times 0, 50 and 130, rejected with the third error. *)
Definition three_failures : list (Event JsVal string) :=
  [ Retry "first"; Elapse 50; Timeout;
    Retry "second"; Elapse 80; Timeout;
    Retry "third" ].

Definition after_three_failures : State JsVal string :=
  default (retry (mkOptions None None))
          (exec three_failures (retry (mkOptions (Some 2) (Some 50)))).

(** An operation that gives the retry signal twice in its first call, at
    times 0 and 40: under an interval of 50 the two timers call it at times
    50 and 90. *)
Definition signalled_twice : list (Event JsVal string) :=
  [ Retry "first"; Elapse 40; Retry "again"; Elapse 10; Timeout;
    Elapse 40; Timeout ].

End RetryExamples.

Module RequestExamples.
Import Json Request.

(** A request of [http://example.test/items] with the body [{ id: 1 }],
    no proxy. *)
Definition example_URL (url : string) : option URL :=
  Some {| protocol := "http:"; hostname := "example.test"; port := "";
          pathname := "/items"; search := ""; hash := "" |}.

Definition no_proxy (url : string) : JsVal := JUndefined.

Definition items_options : Options :=
  {| body := JObj [("id", JNum 1 0)]; headers := None; retries := None;
     retryNotFound := JUndefined; interval := None; noProxy := JUndefined;
     buffer := JUndefined; agent := JUndefined; rest := [] |}.

Definition items_request (o : Options) : option Prepared :=
  request example_URL no_proxy "http://example.test/items"
          (OptionsObject o) None.

(** A 503 with a body that is no JSON; then the message and the request
    both report an error. *)
Definition failing_thrice : list Incoming :=
  [ OnResponse (mkRes 503 "Service Unavailable" ∅); OnData "oops"; OnEnd;
    ResponseError (mkError "Error" (JStr "aborted") (JStr "ECONNRESET") None);
    RequestError (mkError "Error" (JStr "denied") (JStr "EACCES") None) ].

Definition run_request (o : Options) (hs : list Happening) : option Run :=
  match items_request o with
  | Some p => happenings p hs (start p)
  | None => None
  end.

Definition outcome_of (r : option Run)
  : option (Retry.Settlement JsVal Error) :=
  match r with
  | Some r => Retry.settled (retrying r)
  | None => None
  end.

Definition calls_of (r : option Run) : nat :=
  match r with
  | Some r => length (Retry.attempts (retrying r))
  | None => 0
  end.

Definition pause : list Happening := [Clock 50; TimerFires].

(** A callback that gives the [name] of the body, and the text of a body
    that has one. *)
Definition name_callback : Callback :=
  fun body res => Returns (prop "name" body).

Definition named_text : string :=
  "{" +:+ quoted "name" +:+ ":" +:+ quoted "percy" +:+ "}".

End RequestExamples.

Module MoreExamples.

(** The three promises of [PoolExamples.three_fulfilled] under a ceiling of
    two; the second settles first. *)
Definition second_first : Pool.State :=
  default (Pool.initial [])
          (Pool.run 2 [1; 0; 0]%nat
                    (Pool.pool PoolExamples.three_fulfilled 2)).

(** A retry engine with a timer pending: the operation has asked for
    another attempt at time 0, under the default budget and interval. *)
Definition retry_pending : Retry.State JsVal string :=
  Retry.retry_signal "failed" (Retry.retry (Retry.mkOptions None None)).

(** A callback that gives zero whatever the body, and the request of
    [RequestExamples] with it. *)
Definition zero_callback : Request.Callback :=
  fun body res => Request.Returns (JNum 0 0).

Definition items_counted : option Request.Prepared :=
  Request.request RequestExamples.example_URL RequestExamples.no_proxy
    "http://example.test/items"
    (Request.OptionsObject RequestExamples.items_options)
    (Some zero_callback).

(** A callback that throws. *)
Definition failing_callback : Request.Callback :=
  fun body res =>
    Request.Throws
      (Request.ThrownError
         (Request.mkError "Error" (JStr "no items") JUndefined None)).

Definition items_refused : option Request.Prepared :=
  Request.request RequestExamples.example_URL RequestExamples.no_proxy
    "http://example.test/items"
    (Request.OptionsObject RequestExamples.items_options)
    (Some failing_callback).

(** What a run of one attempt shows: whether the closure is marked, the
    errors given to [handleError], the signals sent. *)
Definition observed
    (r : option (Request.Attempt * list Request.Error
                 * list (Retry.Event JsVal Request.Error)))
  : option (bool * list Request.Error
            * list (Retry.Event JsVal Request.Error)) :=
  match r with
  | Some (st, raised, signals) => Some (Request.handled st, raised, signals)
  | None => None
  end.

(** The conversion to text of the values used below: a string is its own
    text. *)
Definition text_of (v : JsVal) : string :=
  match v with
  | JStr text => text
  | JBool true => "true"
  | JBool false => "false"
  | JNull => "null"
  | JUndefined => "undefined"
  | JNum m e => Json.number_text m e
  | JArr _ => ""
  | JObj _ => "[object Object]"
  | JBuffer bytes => bytes
  end.

(** A home directory with a package description, and a project in it with
    one of its own. *)
Definition project_files : Package.Files :=
  {[ ["home"; "u"; "package.json"] := Package.File "{}";
     ["home"; "u"; "proj"; "package.json"] :=
       Package.File ("{" +:+ Json.quoted "name" +:+ ":"
                     +:+ Json.quoted "proj" +:+ "}") ]}.

(** The same home directory and a project with no description. *)
Definition bare_files : Package.Files :=
  {[ ["home"; "u"; "package.json"] := Package.File "{}" ]}.

End MoreExamples.

(** * Properties *)

(** ** The concurrency pool *)

Module PoolFacts.
Import Pool PoolExamples.

Lemma finish_fields st :
  iterator (finish st) = iterator st /\ queue (finish st) = queue st /\
  ret (finish st) = ret st /\ err (finish st) = err st /\
  inflight (finish st) = inflight st /\ finished (finish st) = finished st /\
  discarded (finish st) = discarded st /\
  queue_log (finish st) = queue_log st.
Proof.
  unfold finish, settle.
  destruct (queue st =? 0), (truthy (err st)), (settled st); simpl;
    repeat match goal with
           | |- context [queue ?s =? 0] => destruct (queue s =? 0) eqn:?
           | |- context [match settled ?s with _ => _ end] =>
               destruct (settled s) eqn:?
           end; simpl; auto 10.
Qed.

Lemma finish_settled st :
  settled st = None ->
  settled (finish st) = if queue st =? 0 then Some (verdict st) else None.
Proof.
  intros Hs. unfold finish, settle, verdict. rewrite Hs.
  destruct (queue st =? 0) eqn:Hq; simpl.
  - destruct (truthy (err st)); simpl; rewrite ?Hq, ?Hs; reflexivity.
  - rewrite Hq; assumption.
Qed.

Lemma consistent_finish N gen st :
  settled st = None ->
  (truthy (err st) = false -> iterator st = []) ->
  consistent N gen st -> consistent N gen (finish st).
Proof.
  intros Hs Hit [Hq Hb Hl He Hr Ha _].
  destruct (finish_fields st) as (Ei & Eq & Er & Ee & Ef & Efi & Ed & El).
  split; rewrite ?Ei, ?Eq, ?Er, ?Ee, ?Ef, ?Efi, ?Ed, ?El; auto.
  intros o. rewrite finish_settled by assumption.
  destruct (queue st =? 0) eqn:Hz; [|discriminate].
  intros [= <-]. apply Z.eqb_eq in Hz.
  split; [|split].
  - destruct (inflight st); [reflexivity|]. simpl in Hq. lia.
  - unfold verdict. rewrite Er, Ee. reflexivity.
  - assumption.
Qed.

Lemma errors_app ps qs : errors (ps ++ qs) = errors ps ++ errors qs.
Proof. apply omap_app. Qed.

Lemma values_app ps qs : values (ps ++ qs) = values ps ++ values qs.
Proof. apply omap_app. Qed.

Lemma proceed_from_consistent N gen it :
  forall st, iterator st = it -> settled st = None ->
    consistent N gen st -> consistent N gen (proceed_from N it st).
Proof.
  induction it as [|p rest IH]; intros st Hit Hs Hc; simpl.
  - destruct (queue st <? N); [|assumption].
    apply consistent_finish; [assumption|reflexivity|].
    destruct Hc as [Hq Hb Hl He Hr Ha Hse].
    split; simpl; auto; [|congruence]. rewrite Ha, Hit. reflexivity.
  - destruct (queue st <? N) eqn:Hlt; [|assumption].
    apply Z.ltb_lt in Hlt.
    destruct Hc as [Hq Hb Hl He Hr Ha Hse]. rewrite Hit in Ha.
    destruct (truthy (err st)) eqn:Ht.
    + apply consistent_finish; simpl; [assumption|congruence|].
      split; simpl; auto; [|congruence].
      rewrite Ha. solve_Permutation.
    + apply IH; [reflexivity|assumption|].
      split; simpl; auto.
      * rewrite length_app. simpl. lia.
      * lia.
      * apply Forall_app. split; [assumption|].
        constructor; [lia|constructor].
      * rewrite Ha. solve_Permutation.
      * congruence.
Qed.

Lemma proceed_from_frame N it :
  forall st,
    ret (proceed_from N it st) = ret st /\
    err (proceed_from N it st) = err st /\
    finished (proceed_from N it st) = finished st.
Proof.
  induction it as [|p rest IH]; intros st; simpl;
    destruct (queue st <? N); auto.
  - destruct (finish_fields (set_iterator [] st))
      as (_ & _ & Er & Ee & _ & Ef & _). auto.
  - destruct (truthy (err st)).
    + destruct (finish_fields (discard p (set_iterator rest st)))
        as (_ & _ & Er & Ee & _ & Ef & _). auto.
    + destruct (IH (launch p (set_iterator rest st))) as (Er & Ee & Ef).
      auto.
Qed.

(** With no error latched, the loop drops nothing. *)
Lemma proceed_from_keeps N it :
  forall st, truthy (err st) = false ->
    discarded (proceed_from N it st) = discarded st.
Proof.
  induction it as [|p rest IH]; intros st Ht; simpl;
    destruct (queue st <? N); auto.
  - destruct (finish_fields (set_iterator [] st))
      as (_ & _ & _ & _ & _ & _ & Ed & _). auto.
  - rewrite Ht. rewrite IH; auto.
Qed.

(** After the loop, a pool that has not settled has a promise in flight. *)
Lemma proceed_from_pending N it :
  forall st, 1 <= N -> queue st = Z.of_nat (length (inflight st)) ->
    settled st = None -> settled (proceed_from N it st) = None ->
    inflight (proceed_from N it st) <> [].
Proof.
  induction it as [|p rest IH]; intros st HN Hq Hs; simpl;
    destruct (queue st <? N) eqn:Hlt;
    try (intros _ E; rewrite E in Hq; simpl in Hq;
         apply Z.ltb_ge in Hlt; lia).
  - rewrite finish_settled by assumption. simpl.
    destruct (finish_fields (set_iterator [] st))
      as (_ & _ & _ & _ & Ei & _). rewrite Ei. simpl.
    destruct (queue st =? 0) eqn:Hz; [discriminate|].
    intros _ E. rewrite E in Hq. simpl in Hq. apply Z.eqb_neq in Hz. lia.
  - destruct (truthy (err st)).
    + rewrite finish_settled by assumption. simpl.
      destruct (finish_fields (discard p (set_iterator rest st)))
        as (_ & _ & _ & _ & Ei & _). rewrite Ei. simpl.
      destruct (queue st =? 0) eqn:Hz; [discriminate|].
      intros _ E. rewrite E in Hq. simpl in Hq. apply Z.eqb_neq in Hz. lia.
    + apply IH; simpl; auto.
      rewrite length_app. simpl. lia.
Qed.

Lemma consistent_initial N gen : consistent N gen (initial gen).
Proof.
  split; simpl; auto; try lia.
  - constructor; [lia|constructor].
  - discriminate.
Qed.

Lemma consistent_pool N gen : consistent N gen (pool gen N).
Proof.
  apply proceed_from_consistent; auto using consistent_initial.
Qed.

Lemma on_settle_inv N i st st' :
  on_settle N i st = Some st' ->
  exists p, inflight st !! i = Some p /\
    st' = handler N p
            {| iterator := iterator st; queue := queue st; ret := ret st;
               err := err st; settled := settled st;
               inflight := delete i (inflight st);
               finished := finished st; discarded := discarded st;
               queue_log := queue_log st |}.
Proof.
  unfold on_settle. destruct (inflight st !! i) as [p|]; [|discriminate].
  intros [= <-]. eauto.
Qed.

Lemma inflight_unsettled N gen st i p :
  consistent N gen st -> inflight st !! i = Some p -> settled st = None.
Proof.
  intros Hc Hi. destruct (settled st) as [o|] eqn:Hs; [|reflexivity].
  destruct (c_settled _ _ _ Hc o Hs) as (E & _). rewrite E in Hi.
  discriminate.
Qed.

Lemma last_error_snoc ps p :
  last_error (ps ++ [p]) =
    match outcome p with Rejects e => e | Fulfils _ => last_error ps end.
Proof.
  unfold last_error. rewrite errors_app. unfold errors at 2, error_of.
  simpl. destruct (outcome p); simpl.
  - rewrite app_nil_r. reflexivity.
  - rewrite last_snoc. reflexivity.
Qed.

Lemma values_snoc ps p :
  values (ps ++ [p]) =
    match outcome p with
    | Fulfils v => values ps ++ [v]
    | Rejects _ => values ps
    end.
Proof.
  rewrite values_app. unfold values at 2, value_of. simpl.
  destruct (outcome p); simpl; rewrite ?app_nil_r; reflexivity.
Qed.

Lemma consistent_on_settle N gen i st st' :
  consistent N gen st -> on_settle N i st = Some st' ->
  consistent N gen st'.
Proof.
  intros Hc Hstep. destruct (on_settle_inv _ _ _ _ Hstep) as (p & Hi & ->).
  pose proof (inflight_unsettled _ _ _ _ _ Hc Hi) as Hs.
  destruct Hc as [Hq Hb Hl He Hr Ha Hse].
  pose proof (lookup_lt_Some _ _ _ Hi) as Hlen.
  pose proof (delete_Permutation _ _ _ Hi) as Hperm.
  assert (Hlog : Forall (fun q => 0 <= q <= Z.max 0 N)
                   (queue_log st ++ [queue st - 1])).
  { apply Forall_app. split; [assumption|].
    constructor; [lia|constructor]. }
  assert (Hdel : queue st - 1 = Z.of_nat (length (delete i (inflight st)))).
  { rewrite length_delete by eauto. lia. }
  assert (Hgen : gen ≡ₚ finished st ++ (p :: delete i (inflight st))
                           ++ discarded st ++ iterator st).
  { rewrite Ha.
    apply Permutation_app_head, Permutation_app_tail, Hperm. }
  unfold handler, proceed.
  destruct (outcome p) as [v|e] eqn:Ho;
    (apply proceed_from_consistent; [reflexivity|assumption|]);
    split; simpl; auto; try lia; try congruence.
  - rewrite last_error_snoc, Ho. assumption.
  - rewrite values_snoc, Ho. congruence.
  - rewrite Hgen. solve_Permutation.
  - rewrite last_error_snoc, Ho. reflexivity.
  - rewrite values_snoc, Ho. assumption.
  - rewrite Hgen. solve_Permutation.
Qed.

Lemma reachable_consistent N gen st :
  reachable gen N st -> consistent N gen st.
Proof.
  intros [k Hk]. induction Hk as [|k st' st'' _ IH Hstep].
  - apply consistent_pool.
  - destruct Hstep as [i st' st'' Hi].
    eapply consistent_on_settle; eauto.
Qed.

Lemma pool_pending N gen :
  1 <= N -> settled (pool gen N) = None -> inflight (pool gen N) <> [].
Proof. intros HN. apply proceed_from_pending; auto. Qed.

Lemma on_settle_pending N gen i st st' :
  1 <= N -> consistent N gen st -> on_settle N i st = Some st' ->
  settled st' = None -> inflight st' <> [].
Proof.
  intros HN Hc Hstep. destruct (on_settle_inv _ _ _ _ Hstep) as (p & Hi & ->).
  pose proof (inflight_unsettled _ _ _ _ _ Hc Hi) as Hs.
  pose proof (lookup_lt_Some _ _ _ Hi) as Hlen.
  pose proof (c_queue _ _ _ Hc) as Hq.
  unfold handler, proceed.
  destruct (outcome p); apply proceed_from_pending; simpl; auto;
    rewrite length_delete by eauto; lia.
Qed.

Lemma reachable_pending N gen st :
  1 <= N -> reachable gen N st -> settled st = None -> inflight st <> [].
Proof.
  intros HN [k Hk]. destruct Hk as [|k st' st'' Hk Hstep].
  - apply pool_pending; assumption.
  - destruct Hstep as [i st' st'' Hi].
    apply (on_settle_pending N gen i st' st''); auto.
    apply reachable_consistent. exists k. assumption.
Qed.

(** What one settlement does to the source's variables. *)
Lemma on_settle_effect N i st st' :
  on_settle N i st = Some st' ->
  exists p, inflight st !! i = Some p /\
    finished st' = finished st ++ [p] /\
    err st' = match outcome p with Rejects e => e | Fulfils _ => err st end /\
    ret st' = match outcome p with
              | Fulfils v => ret st ++ [v]
              | Rejects _ => ret st
              end.
Proof.
  intros Hstep. destruct (on_settle_inv _ _ _ _ Hstep) as (p & Hi & ->).
  exists p. split; [assumption|]. unfold handler, proceed.
  destruct (outcome p);
    match goal with
    | |- context [proceed_from N ?it ?s] =>
        destruct (proceed_from_frame N it s) as (Er & Ee & Ef)
    end; rewrite Er, Ee, Ef; simpl; auto.
Qed.

(** A run of [k] settlements has run the handlers of [k] promises. *)
Lemma steps_finished N gen k st :
  steps N (pool gen N) k st -> length (finished st) = k.
Proof.
  induction 1 as [|k st' st'' _ IH Hstep].
  - unfold pool, proceed.
    destruct (proceed_from_frame N (iterator (initial gen)) (initial gen))
      as (_ & _ & ->). reflexivity.
  - destruct Hstep as [i st' st'' Hi].
    destruct (on_settle_effect _ _ _ _ Hi) as (p & _ & -> & _).
    rewrite length_app. simpl. lia.
Qed.

Lemma consistent_length N gen st :
  consistent N gen st ->
  length gen = (length (finished st) + length (inflight st) +
                length (discarded st) + length (iterator st))%nat.
Proof.
  intros Hc. rewrite (Permutation_length (c_all _ _ _ Hc)).
  rewrite !length_app. lia.
Qed.

(** No run is longer than the generator. *)
Lemma steps_bounded N gen k st :
  steps N (pool gen N) k st -> (k <= length gen)%nat.
Proof.
  intros Hk. rewrite <- (steps_finished _ _ _ _ Hk).
  rewrite (consistent_length N gen st); [lia|].
  apply reachable_consistent. exists k. assumption.
Qed.

Lemma pending_step N st :
  inflight st <> [] -> exists st', step N st st'.
Proof.
  destruct (inflight st) as [|p ps] eqn:E; [congruence|]. intros _.
  destruct (on_settle N 0 st) as [st'|] eqn:Hs.
  - exists st'. econstructor. eassumption.
  - unfold on_settle in Hs. rewrite E in Hs. discriminate.
Qed.

Lemma settled_stuck N gen st o :
  consistent N gen st -> settled st = Some o ->
  forall st', ~ step N st st'.
Proof.
  intros Hc Hs st' Hstep. destruct Hstep as [i st st' Hi].
  destruct (on_settle_inv _ _ _ _ Hi) as (p & Hp & _).
  rewrite (inflight_unsettled _ _ _ _ _ Hc Hp) in Hs. discriminate.
Qed.

(** Every run can be continued until the pool settles, and cannot be
    continued further than the generator is long. *)
Lemma pool_settles N gen :
  1 <= N ->
  forall n k st, steps N (pool gen N) k st -> (length gen - k <= n)%nat ->
    exists k' st' o, steps N (pool gen N) k' st' /\ settled st' = Some o.
Proof.
  intros HN. induction n as [|n IH]; intros k st Hk Hn.
  - destruct (settled st) as [o|] eqn:Hs; [eauto|].
    assert (Hr : reachable gen N st) by (exists k; assumption).
    pose proof (reachable_pending _ _ _ HN Hr Hs) as Hp.
    pose proof (consistent_length _ _ _ (reachable_consistent _ _ _ Hr)) as L.
    rewrite (steps_finished _ _ _ _ Hk) in L.
    destruct (inflight st); [congruence|]. simpl in L. lia.
  - destruct (settled st) as [o|] eqn:Hs; [eauto|].
    assert (Hr : reachable gen N st) by (exists k; assumption).
    destruct (pending_step N st (reachable_pending _ _ _ HN Hr Hs))
      as (st' & Hstep).
    apply (IH (S k) st'); [econstructor; eassumption|lia].
Qed.

(** *** Runs in which every promise fulfils *)

Lemma succeed_errors ps :
  Forall succeeds ps ->
  errors ps = [] /\ length (values ps) = length ps.
Proof.
  induction 1 as [|p ps [v Hv] _ [IHe IHv]]; [auto|].
  unfold errors, values in *. simpl.
  unfold error_of at 1, value_of at 1. rewrite Hv. simpl.
  split; [exact IHe|]. f_equal. exact IHv.
Qed.

Lemma succeed_finished N gen st :
  Forall succeeds gen -> consistent N gen st ->
  Forall succeeds (finished st) /\ Forall succeeds (inflight st).
Proof.
  intros Hall Hc. rewrite (c_all _ _ _ Hc) in Hall.
  rewrite !Forall_app in Hall. tauto.
Qed.

Lemma succeed_err N gen st :
  Forall succeeds gen -> consistent N gen st -> err st = JUndefined.
Proof.
  intros Hall Hc. rewrite (c_err _ _ _ Hc). unfold last_error.
  destruct (succeed_finished _ _ _ Hall Hc) as [Hf _].
  destruct (succeed_errors _ Hf) as [-> _]. reflexivity.
Qed.

Lemma succeed_keeps N gen k st :
  Forall succeeds gen -> steps N (pool gen N) k st -> discarded st = [].
Proof.
  intros Hall. induction 1 as [|k st' st'' Hk IH Hstep].
  - unfold pool, proceed. rewrite proceed_from_keeps; reflexivity.
  - assert (Hc : consistent N gen st').
    { apply reachable_consistent. exists k. assumption. }
    destruct Hstep as [i st' st'' Hi].
    destruct (on_settle_inv _ _ _ _ Hi) as (p & Hp & ->).
    destruct (succeed_finished _ _ _ Hall Hc) as [_ Hin].
    rewrite Forall_lookup in Hin. destruct (Hin _ _ Hp) as [v Hv].
    unfold handler, proceed. rewrite Hv.
    rewrite proceed_from_keeps; simpl; [assumption|].
    rewrite (succeed_err _ _ _ Hall Hc). reflexivity.
Qed.

(** *** Runs given by a schedule *)

Lemma steps_front N st st' k st'' :
  step N st st' -> steps N st' k st'' -> steps N st (S k) st''.
Proof.
  intros H1 H2. induction H2 as [|k a b _ IH Hs].
  - econstructor; [constructor|assumption].
  - econstructor; eassumption.
Qed.

Lemma run_steps N schedule :
  forall st st', run N schedule st = Some st' ->
    steps N st (length schedule) st'.
Proof.
  induction schedule as [|i rest IH]; simpl; intros st st' H.
  - injection H as <-. constructor.
  - destruct (on_settle N i st) as [st1|] eqn:E; [|discriminate].
    eapply steps_front; [econstructor; eassumption|]. apply IH, H.
Qed.

Lemma run_reachable N gen schedule st :
  run N schedule (pool gen N) = Some st -> reachable gen N st.
Proof. intros H. eexists. apply run_steps, H. Qed.

(** *** The ceiling, and the result of a run without failure *)

(** C5. With a ceiling [concurrency >= 1] and a generator of [M] promises,
    the count of promises in flight, [queue], is the number of promises
    whose handlers are attached and stays within [0, concurrency]: in
    every state of every run and at every write of the counter.  When
    every promise fulfils, a run cannot stop before the pool settles, it
    settles after exactly [M] settlements, and the pool then resolves with
    [M] results. *)
Theorem pool_bounded_and_complete
    (concurrency : Z) (generated : list Promise) :
  1 <= concurrency ->
  (forall st, reachable generated concurrency st ->
     0 <= queue st <= concurrency /\
     queue st = Z.of_nat (length (inflight st)) /\
     Forall (fun q => 0 <= q <= concurrency) (queue_log st)) /\
  (Forall succeeds generated ->
   forall k st, steps concurrency (pool generated concurrency) k st ->
     (k <= length generated)%nat /\
     (settled st = None ->
        (k < length generated)%nat /\ exists st', step concurrency st st') /\
     (forall o, settled st = Some o ->
        k = length generated /\ o = Resolved (ret st) /\
        length (ret st) = length generated)).
Proof.
  intros HN. split.
  - intros st Hr. pose proof (reachable_consistent _ _ _ Hr) as Hc.
    destruct Hc as [Hq Hb Hl _ _ _ _]. split; [lia|]. split; [assumption|].
    eapply Forall_impl; [exact Hl|]. simpl. intros q Hq'. lia.
  - intros Hall k st Hk.
    assert (Hr : reachable generated concurrency st) by (exists k; assumption).
    pose proof (reachable_consistent _ _ _ Hr) as Hc.
    pose proof (consistent_length _ _ _ Hc) as L.
    rewrite (steps_finished _ _ _ _ Hk) in L.
    rewrite (succeed_keeps _ _ _ _ Hall Hk) in L. simpl in L.
    pose proof (succeed_err _ _ _ Hall Hc) as He.
    split; [lia|]. split.
    + intros Hs. pose proof (reachable_pending _ _ _ HN Hr Hs) as Hp.
      split; [|apply pending_step; assumption].
      destruct (inflight st); [congruence|]. simpl in L. lia.
    + intros o Hs. destruct (c_settled _ _ _ Hc o Hs) as (Hi & Ho & Hit).
      rewrite Hi, Hit in L by (rewrite He; reflexivity). simpl in L.
      unfold verdict in Ho. rewrite He in Ho. simpl in Ho.
      split; [lia|]. split; [assumption|].
      rewrite (c_ret _ _ _ Hc).
      destruct (succeed_finished _ _ _ Hall Hc) as [Hf _].
      destruct (succeed_errors _ Hf) as [_ ->].
      rewrite (steps_finished _ _ _ _ Hk). lia.
Qed.

Lemma pool_bounded_and_complete_witness :
  (forall st, reachable three_fulfilled 2 st ->
     0 <= queue st <= 2 /\
     queue st = Z.of_nat (length (inflight st)) /\
     Forall (fun q => 0 <= q <= 2) (queue_log st)) /\
  (forall k st, steps 2 (pool three_fulfilled 2) k st ->
     (k <= 3)%nat /\
     (settled st = None ->
        (k < 3)%nat /\ exists st', step 2 st st') /\
     (forall o, settled st = Some o ->
        k = 3%nat /\ o = Resolved (ret st) /\ length (ret st) = 3%nat)).
Proof.
  destruct (pool_bounded_and_complete 2 three_fulfilled) as [Hb Hc];
    [lia|].
  split; [exact Hb|]. apply Hc.
  repeat constructor; eexists; reflexivity.
Defined.

(** *** Settling *)

(** C6. In every run, when the pool's promise is settled no promise is in
    flight any more: the count is zero, every promise that was launched
    has had its handler run, also when an error was latched meanwhile,
    and no further settlement follows, so that the promise is settled once
    and with one outcome: the test of [finish] on the latched error, which
    is the one error that surfaces when the pool rejects. *)
Theorem pool_settles_after_drain
    (concurrency : Z) (generated : list Promise) (st : State)
    (o : Settlement) :
  reachable generated concurrency st -> settled st = Some o ->
  inflight st = [] /\ queue st = 0 /\
  generated ≡ₚ finished st ++ discarded st ++ iterator st /\
  (forall st', ~ step concurrency st st') /\
  o = verdict st /\
  (forall e, o = Rejected e -> e = err st /\ truthy e = true).
Proof.
  intros Hr Hs. pose proof (reachable_consistent _ _ _ Hr) as Hc.
  destruct (c_settled _ _ _ Hc o Hs) as (Hi & Ho & _).
  split; [assumption|]. split.
  { rewrite (c_queue _ _ _ Hc), Hi. reflexivity. }
  split.
  { rewrite (c_all _ _ _ Hc), Hi. reflexivity. }
  split; [eapply settled_stuck; eassumption|].
  split; [assumption|].
  intros e ->. unfold verdict in Ho.
  destruct (truthy (err st)) eqn:Ht; [|discriminate].
  injection Ho as ->. auto.
Qed.

Lemma pool_settles_after_drain_witness :
  inflight after_two_rejected = [] /\ queue after_two_rejected = 0 /\
  two_rejected ≡ₚ finished after_two_rejected ++
                  discarded after_two_rejected ++
                  iterator after_two_rejected /\
  (forall st', ~ step 2 after_two_rejected st') /\
  Rejected (JObj [("message", JStr "second")]) = verdict after_two_rejected /\
  (forall e, Rejected (JObj [("message", JStr "second")]) = Rejected e ->
     e = err after_two_rejected /\ truthy e = true).
Proof.
  apply (pool_settles_after_drain 2 two_rejected after_two_rejected
           (Rejected (JObj [("message", JStr "second")]))).
  - apply (run_reachable 2 two_rejected [0; 0]%nat).
    vm_compute. reflexivity.
  - vm_compute. reflexivity.
Defined.

(** *** Which error the pool rejects with *)

(** C1, as stated, fails: with both promises in flight, the one that
    rejects first latches its error and the one that rejects second
    overwrites it, so the pool rejects with the second error to occur. *)
Lemma pool_first_error_overwritten :
  exists st,
    run 2 [0; 0]%nat (pool two_rejected 2) = Some st /\
    errors (finished st) =
      [ JObj [("message", JStr "first")];
        JObj [("message", JStr "second")] ] /\
    settled st = Some (Rejected (JObj [("message", JStr "second")])) /\
    settled st <> Some (Rejected (JObj [("message", JStr "first")])).
Proof.
  eexists. split; [vm_compute; reflexivity|].
  split; [reflexivity|]. split; [reflexivity|]. discriminate.
Qed.

(** While no promise has rejected, the loop has dropped nothing. *)
Lemma unfailed_keeps N gen k st :
  steps N (pool gen N) k st -> errors (finished st) = [] ->
  discarded st = [].
Proof.
  induction 1 as [|k st' st'' Hk IH Hstep]; intros He.
  - unfold pool, proceed. rewrite proceed_from_keeps; reflexivity.
  - assert (Hc : consistent N gen st').
    { apply reachable_consistent. exists k. assumption. }
    destruct Hstep as [i st' st'' Hi].
    destruct (on_settle_effect _ _ _ _ Hi) as (q & Hq & Ef & _).
    destruct (on_settle_inv _ _ _ _ Hi) as (p & Hp & ->).
    assert (q = p) by congruence. subst q.
    rewrite Ef, errors_app in He. apply app_eq_nil in He as [He Hp'].
    unfold errors, error_of in Hp'. simpl in Hp'.
    destruct (outcome p) as [v|e] eqn:Ho; [|discriminate Hp'].
    unfold handler, proceed. rewrite Ho.
    rewrite proceed_from_keeps; simpl; [auto|].
    rewrite (c_err _ _ _ Hc). unfold last_error. rewrite He. reflexivity.
Qed.

(** An error of a promise whose handler ran is an error of a generated
    promise. *)
Lemma finished_errors N gen st e :
  consistent N gen st -> e ∈ errors (finished st) -> e ∈ errors gen.
Proof.
  intros Hc. unfold errors. rewrite !list_elem_of_omap.
  intros (p & Hp & He). exists p. split; [|assumption].
  rewrite (c_all _ _ _ Hc). apply elem_of_app. left. assumption.
Qed.

(** C1, amended.  Take a ceiling of at least one and a generator whose
    promises, when they reject, reject with truthy errors, one of them at
    least rejecting.  Every run can be continued until the pool settles, and
    a settled pool is rejected, with the last error to occur: of the
    promises whose handlers ran, taken in the order in which they settled,
    the one that rejected last gives the error (every rejection overwrites
    the one latched), whatever the order of the promises in the generator;
    the errors of the rejections before it are dropped. *)
Theorem pool_rejects_with_last_error
    (concurrency : Z) (generated : list Promise) :
  1 <= concurrency ->
  Forall (fun e => truthy e = true) (errors generated) ->
  errors generated <> [] ->
  (exists k st o,
     steps concurrency (pool generated concurrency) k st /\
     settled st = Some o) /\
  (forall st o,
     reachable generated concurrency st -> settled st = Some o ->
     exists e, last (errors (finished st)) = Some e /\ o = Rejected e).
Proof.
  intros HN Ht Hne. split.
  - apply (pool_settles concurrency generated HN (length generated) 0%nat
             (pool generated concurrency)); [constructor|lia].
  - intros st o Hr Hs. pose proof (reachable_consistent _ _ _ Hr) as Hc.
    destruct (c_settled _ _ _ Hc o Hs) as (Hin & -> & Hit).
    destruct (last (errors (finished st))) as [e|] eqn:Hl.
    + exists e. split; [reflexivity|].
      unfold verdict. rewrite (c_err _ _ _ Hc). unfold last_error.
      rewrite Hl. simpl.
      rewrite Forall_forall in Ht. rewrite (Ht e); [reflexivity|].
      apply (finished_errors concurrency generated st); [assumption|].
      apply last_Some_elem_of. assumption.
    + exfalso. apply Hne. apply last_None in Hl.
      destruct Hr as [k Hk].
      pose proof (unfailed_keeps _ _ _ _ Hk Hl) as Hd.
      assert (Hi : iterator st = []).
      { apply Hit. rewrite (c_err _ _ _ Hc). unfold last_error.
        rewrite Hl. reflexivity. }
      pose proof (c_all _ _ _ Hc) as Ha.
      rewrite Hin, Hd, Hi, !app_nil_r in Ha.
      apply Permutation_nil_r. rewrite <- Hl. unfold errors.
      rewrite Ha. reflexivity.
Qed.

(** With one failure only, with a truthy error, the pool rejects with it. *)
Lemma pool_single_error N gen st o e :
  reachable gen N st -> settled st = Some o ->
  errors (finished st) = [e] -> truthy e = true -> o = Rejected e.
Proof.
  intros Hr Hs He Ht. pose proof (reachable_consistent _ _ _ Hr) as Hc.
  destruct (c_settled _ _ _ Hc o Hs) as (_ & -> & _).
  unfold verdict. rewrite (c_err _ _ _ Hc). unfold last_error.
  rewrite He. simpl. rewrite Ht. reflexivity.
Qed.

Lemma pool_rejects_with_last_error_witness :
  (exists k st o,
     steps 2 (pool two_rejected 2) k st /\ settled st = Some o) /\
  (forall st o,
     reachable two_rejected 2 st -> settled st = Some o ->
     exists e, last (errors (finished st)) = Some e /\ o = Rejected e).
Proof.
  apply (pool_rejects_with_last_error 2 two_rejected).
  - lia.
  - simpl. repeat constructor.
  - simpl. discriminate.
Defined.

(** *** Draining after an error *)

(** C10. With an error latched, the handler of the next promise to settle
    (one that fulfils, or rejects with a truthy error) runs the loop of
    [proceed] for one turn: it takes one promise from the generator, if
    there is one, before it tests [err], and drops it: the promise is not
    put in flight, no handler is attached to it and the count is not
    raised for it.  The generator is thus advanced by one at every such
    settlement. *)
Theorem pool_drain_after_error
    (concurrency : Z) (generated : list Promise) (st st' : State)
    (i : nat) (p : Promise) :
  reachable generated concurrency st ->
  truthy (err st) = true ->
  inflight st !! i = Some p ->
  (forall e, outcome p = Rejects e -> truthy e = true) ->
  on_settle concurrency i st = Some st' ->
  iterator st' = drop 1 (iterator st) /\
  discarded st' = discarded st ++ take 1 (iterator st) /\
  inflight st' = delete i (inflight st) /\
  queue st' = queue st - 1 /\
  finished st' = finished st ++ [p].
Proof.
  intros Hr Hlatched Hp Hnew Hstep.
  pose proof (reachable_consistent _ _ _ Hr) as Hc.
  pose proof (c_queue _ _ _ Hc) as Hq.
  pose proof (c_bound _ _ _ Hc) as Hb.
  pose proof (lookup_lt_Some _ _ _ Hp) as Hlen.
  unfold on_settle in Hstep. rewrite Hp in Hstep. injection Hstep as <-.
  assert (Hlt : (queue st - 1 <? concurrency) = true) by (apply Z.ltb_lt; lia).
  unfold handler, proceed.
  destruct (outcome p) as [v|e] eqn:Ho; simpl;
    (destruct (iterator st) as [|next rest]; simpl; rewrite Hlt;
     [|rewrite ?Hlatched, ?(Hnew e eq_refl)];
     match goal with
     | |- context [finish ?s] =>
         destruct (finish_fields s) as (Ei & Eq & _ & _ & Ef & Efi & Ed & _);
         rewrite Ei, Eq, Ef, Efi, Ed
     end; simpl; rewrite ?app_nil_r; auto).
Qed.

Lemma pool_drain_after_error_witness :
  iterator after_failure_drained = drop 1 (iterator after_failure) /\
  discarded after_failure_drained =
    discarded after_failure ++ take 1 (iterator after_failure) /\
  inflight after_failure_drained = delete 0%nat (inflight after_failure) /\
  queue after_failure_drained = queue after_failure - 1 /\
  finished after_failure_drained =
    finished after_failure ++ [mkPromise 2 (Fulfils (JStr "late"))].
Proof.
  apply (pool_drain_after_error 2 failure_then_more after_failure
           after_failure_drained 0 (mkPromise 2 (Fulfils (JStr "late")))).
  - apply (run_reachable 2 failure_then_more [0]%nat).
    vm_compute. reflexivity.
  - vm_compute. reflexivity.
  - vm_compute. reflexivity.
  - discriminate.
  - vm_compute. reflexivity.
Defined.

(** In that run the generator is emptied although only two promises were
    ever in flight: the last two were taken and dropped. *)
Example pool_generator_advanced :
  iterator after_failure_drained = [] /\
  discarded after_failure_drained =
    [ mkPromise 3 (Fulfils (JStr "never launched"));
      mkPromise 4 (Fulfils (JStr "never launched either")) ] /\
  settled after_failure_drained =
    Some (Rejected (JObj [("message", JStr "failed")])).
Proof. vm_compute. repeat split. Qed.

End PoolFacts.

(** ** The retry engine *)

Module RetryFacts.
Import Retry RetryExamples.

Section Engine.

Context {V E : Type}.

Implicit Types (st : State V E) (ev : Event V E).

Lemma settle_fields (o : Settlement V E) st :
  retries (settle o st) = retries st /\
  interval (settle o st) = interval st /\
  timers (settle o st) = timers st /\
  now (settle o st) = now st /\
  attempts (settle o st) = attempts st.
Proof. unfold settle. destruct (settled st); simpl; auto. Qed.

Lemma within_start (R i : Z) :
  0 <= R -> within R i (retry (V:=V) (E:=E) (mkOptions (Some R) (Some i))).
Proof.
  intros HR. split; simpl; auto; try lia; discriminate.
Qed.

Lemma within_step (R i : Z) ev st st' :
  within R i st -> step ev st = Some st' -> within R i st'.
Proof.
  intros [Hi Hb Hc Hw] Hstep. destruct ev as [d| |v|e|e]; simpl in Hstep.
  - destruct (0 <=? d); [|discriminate]. injection Hstep as <-.
    split; simpl; auto.
  - destruct (timers st) as [|asked rest] eqn:Ht; [discriminate|].
    destruct (asked + interval st <=? now st) eqn:Hdue; [|discriminate].
    injection Hstep as <-. apply Z.leb_le in Hdue. rewrite Hi in Hdue.
    split; simpl; auto.
    + rewrite length_app. simpl in *. lia.
    + destruct (attempts st); [congruence|discriminate].
    + destruct (attempts st) as [|a l]; [congruence|]. simpl in *.
      apply Forall_app. split; [assumption|].
      constructor; [simpl; lia|constructor].
  - injection Hstep as <-. unfold resolve.
    destruct (settle_fields (Resolved v) st) as (Er & Ei & Et & _ & Ea).
    split; rewrite ?Er, ?Ei, ?Et, ?Ea; auto.
  - injection Hstep as <-. unfold reject.
    destruct (settle_fields (Rejected e) st) as (Er & Ei & Et & _ & Ea).
    split; rewrite ?Er, ?Ei, ?Et, ?Ea; auto.
  - injection Hstep as <-. unfold retry_signal.
    destruct (retries st >? 0) eqn:Hr.
    + apply Z.gtb_lt in Hr. split; simpl; auto.
      rewrite length_app. simpl. lia.
    + assert (retries st <= 0).
      { destruct (Z.gtb_spec (retries st) 0); [discriminate|lia]. }
      unfold reject.
      match goal with
      | |- within _ _ (settle ?o ?s) =>
          destruct (settle_fields o s) as (Er & Ei & Et & _ & Ea)
      end.
      split; rewrite ?Er, ?Ei, ?Et, ?Ea; simpl; auto. lia.
Qed.

Lemma within_exec (R i : Z) (events : list (Event V E)) :
  forall st st', within R i st -> exec events st = Some st' ->
    within R i st'.
Proof.
  induction events as [|ev rest IH]; simpl; intros st st' Hw H.
  - injection H as <-. assumption.
  - destruct (step ev st) as [st1|] eqn:Hs; [|discriminate].
    eapply IH; [|eassumption]. eapply within_step; eassumption.
Qed.

(** A settled promise stays as it is. *)
Lemma settled_step ev st st' o :
  settled st = Some o -> step ev st = Some st' -> settled st' = Some o.
Proof.
  intros Hs Hstep. destruct ev as [d| |v|e|e]; simpl in Hstep.
  - destruct (0 <=? d); [|discriminate]. injection Hstep as <-. auto.
  - destruct (timers st); [discriminate|].
    destruct (_ <=? _); [|discriminate]. injection Hstep as <-. auto.
  - injection Hstep as <-. unfold resolve, settle. rewrite Hs. auto.
  - injection Hstep as <-. unfold reject, settle. rewrite Hs. auto.
  - injection Hstep as <-. unfold retry_signal, reject, settle. simpl.
    destruct (retries st >? 0); simpl; rewrite ?Hs; auto.
Qed.

Lemma settled_exec (events : list (Event V E)) :
  forall st st' o, settled st = Some o -> exec events st = Some st' ->
    settled st' = Some o.
Proof.
  induction events as [|ev rest IH]; simpl; intros st st' o Hs H.
  - injection H as <-. assumption.
  - destruct (step ev st) as [st1|] eqn:Hstep; [|discriminate].
    eapply IH; [|eassumption]. eapply settled_step; eassumption.
Qed.

(** When the operation only asks for more attempts, the promise is
    rejected by the first signal that finds the budget used up, with the
    error of that signal. *)
Lemma exhausted_exec (events : list (Event V E)) :
  forall st st', only_retries events -> settled st = None ->
    exec events st = Some st' ->
    settled st' =
      Rejected <$> (asked events !! Z.to_nat (Z.max 0 (retries st))).
Proof.
  induction events as [|ev rest IH]; simpl; intros st st' Hq Hs H.
  - injection H as <-. rewrite Hs. reflexivity.
  - apply Forall_cons in Hq as [Hev Hq].
    destruct (step ev st) as [st1|] eqn:Hstep; [|discriminate].
    destruct ev as [d| |v|e|e]; simpl in Hstep; try contradiction.
    + destruct (0 <=? d); [|discriminate]. injection Hstep as <-.
      apply IH in H; [exact H|assumption|exact Hs].
    + destruct (timers st); [discriminate|].
      destruct (_ <=? _); [|discriminate]. injection Hstep as <-.
      apply IH in H; [exact H|assumption|exact Hs].
    + injection Hstep as <-. unfold asked. simpl.
      unfold retry_signal in H. destruct (retries st >? 0) eqn:Hr.
      * apply Z.gtb_lt in Hr.
        apply IH in H; [|assumption|exact Hs]. rewrite H. simpl.
        replace (Z.to_nat (Z.max 0 (retries st)))
          with (S (Z.to_nat (Z.max 0 (retries st - 1)))) by lia.
        reflexivity.
      * assert (retries st <= 0).
        { destruct (Z.gtb_spec (retries st) 0); [discriminate|lia]. }
        replace (Z.to_nat (Z.max 0 (retries st))) with 0%nat by lia.
        simpl. eapply settled_exec; [|exact H].
        unfold reject, settle. simpl. rewrite Hs. reflexivity.
Qed.

Lemma spaced_snoc (i : Z) (calls : list Attempt) (b : Attempt) :
  spaced i calls ->
  (forall a, last calls = Some a -> ran_at a + i <= ran_at b) ->
  spaced i (calls ++ [b]).
Proof.
  induction calls as [|a [|c rest] IH]; simpl; intros Hs Hl.
  - exact I.
  - split; [apply Hl; reflexivity|exact I].
  - destruct Hs as [Hac Hs]. split; [assumption|].
    apply IH; [assumption|]. intros x Hx. apply Hl. exact Hx.
Qed.

Lemma paced_start (o : Options) :
  paced (default 50 (opt_interval o)) (retry (V:=V) (E:=E) o).
Proof.
  split; simpl; auto. constructor; [simpl; lia|constructor].
Qed.

Lemma paced_step (i : Z) ev st st' :
  paced i st -> match ev with Retry _ => timers st = [] | _ => True end ->
  step ev st = Some st' -> paced i st'.
Proof.
  intros [Hi Hc Ht Hs] Hev Hstep.
  destruct ev as [d| |v|e|e]; simpl in Hstep.
  - destruct (0 <=? d) eqn:Hd; [|discriminate]. injection Hstep as <-.
    apply Z.leb_le in Hd. split; simpl; auto.
    eapply Forall_impl; [exact Hc|]. simpl. intros a Ha. lia.
  - destruct (timers st) as [|t [|t' more]] eqn:Et;
      [discriminate| |contradiction].
    destruct (t + interval st <=? now st) eqn:Hdue; [|discriminate].
    injection Hstep as <-. apply Z.leb_le in Hdue. rewrite Hi in Hdue.
    split; simpl; auto.
    + apply Forall_app. split; [assumption|].
      constructor; [simpl; lia|constructor].
    + apply spaced_snoc; [assumption|]. intros a Ha. simpl.
      specialize (Ht a Ha). lia.
  - injection Hstep as <-. unfold resolve.
    destruct (settle_fields (Resolved v) st) as (_ & Ei & Et & En & Ea).
    split; rewrite ?Ei, ?Et, ?En, ?Ea; auto.
  - injection Hstep as <-. unfold reject.
    destruct (settle_fields (Rejected e) st) as (_ & Ei & Et & En & Ea).
    split; rewrite ?Ei, ?Et, ?En, ?Ea; auto.
  - injection Hstep as <-. unfold retry_signal.
    destruct (retries st >? 0).
    + split; simpl; auto. rewrite Hev. simpl. intros a Ha.
      rewrite Forall_forall in Hc. apply Hc.
      apply last_Some_elem_of. assumption.
    + unfold reject.
      match goal with
      | |- paced _ (settle ?o ?s) =>
          destruct (settle_fields o s) as (_ & Ei & Et & En & Ea)
      end.
      split; rewrite ?Ei, ?Et, ?En, ?Ea; simpl; auto.
  Qed.

Lemma paced_exec (i : Z) (events : list (Event V E)) :
  forall st st', paced i st -> orderly events st ->
    exec events st = Some st' -> paced i st'.
Proof.
  induction events as [|ev rest IH]; simpl; intros st st' Hp Ho H.
  - injection H as <-. assumption.
  - destruct Ho as [Hev Ho].
    destruct (step ev st) as [st1|] eqn:Hs; [|discriminate].
    eapply IH; [|exact Ho|exact H]. eapply paced_step; eassumption.
Qed.

(** C4, amended.  With a budget of [R >= 0] retries, in every run the operation
    is called at most [R + 1] times, and once only when [R = 0]; every
    call but the first is made by a timer, no earlier than [interval]
    after the retry signal that set it, so that, the operation giving the
    signal once per call at most, each call comes no earlier than
    [interval] after the call before it; and when the operation does
    nothing but ask for more attempts, the promise is rejected when the
    budget is used up, by signal number [R + 1] and with the error
    passed to that signal, the last one passed by then.  Left out of the
    options, the budget is 5 and the interval 50. *)
Theorem retry_attempts_bounded
    (R i : Z) (events : list (Event V E)) (st : State V E) :
  0 <= R ->
  exec events (retry (mkOptions (Some R) (Some i))) = Some st ->
  Z.of_nat (length (attempts st)) <= R + 1 /\
  (R = 0 -> length (attempts st) = 1%nat) /\
  Forall (fun a => asked_at a + i <= ran_at a) (tail (attempts st)) /\
  (orderly events (retry (mkOptions (Some R) (Some i))) ->
   spaced i (attempts st)) /\
  (only_retries events ->
   settled st = Rejected <$> (asked events !! Z.to_nat R)) /\
  retries (retry (V:=V) (E:=E) (mkOptions None None)) = 5 /\
  interval (retry (V:=V) (E:=E) (mkOptions None None)) = 50 /\
  length (attempts (retry (V:=V) (E:=E) (mkOptions (Some R) (Some i))))
    = 1%nat.
Proof.
  intros HR Hrun.
  destruct (within_exec R i events _ _ (within_start R i HR) Hrun)
    as [Hi Hb Hc Hw].
  split; [lia|]. split.
  { intros ->. destruct (attempts st); [congruence|]. simpl in *. lia. }
  split; [assumption|]. split.
  { intros Ho.
    exact (p_spaced _ _ (paced_exec i events _ _
                           (paced_start (mkOptions (Some R) (Some i)))
                           Ho Hrun)). }
  split; [|auto].
  intros Hq. apply exhausted_exec in Hrun; [|assumption|reflexivity].
  rewrite Hrun. simpl. replace (Z.max 0 R) with R by lia. reflexivity.
Qed.

End Engine.

Lemma retry_attempts_bounded_witness :
  Z.of_nat (length (attempts after_three_failures)) <= 2 + 1 /\
  (2 = 0 -> length (attempts after_three_failures) = 1%nat) /\
  Forall (fun a => asked_at a + 50 <= ran_at a)
         (tail (attempts after_three_failures)) /\
  (orderly three_failures (retry (mkOptions (Some 2) (Some 50))) ->
   spaced 50 (attempts after_three_failures)) /\
  (only_retries three_failures ->
   settled after_three_failures =
     Rejected <$> (asked three_failures !! Z.to_nat 2)) /\
  retries (retry (V:=JsVal) (E:=string) (mkOptions None None)) = 5 /\
  interval (retry (V:=JsVal) (E:=string) (mkOptions None None)) = 50 /\
  length (attempts (retry (V:=JsVal) (E:=string)
                          (mkOptions (Some 2) (Some 50)))) = 1%nat.
Proof.
  apply (retry_attempts_bounded 2 50 three_failures after_three_failures).
  - lia.
  - vm_compute. reflexivity.
Defined.

(** C4, as stated, fails for the interval: an operation that gives the
    retry signal twice in one call sets two timers, and the two calls they
    make are less than [interval] apart; here, under a budget of 5 and an
    interval of 50, the calls are made at times 0, 50 and 90. *)
Lemma retry_interval_not_kept :
  exists st a b,
    0 <= 5 /\
    exec signalled_twice (retry (mkOptions (Some 5) (Some 50))) = Some st /\
    ran_at <$> attempts st = [0; 50; 90] /\
    attempts st !! 1%nat = Some a /\ attempts st !! 2%nat = Some b /\
    ran_at b < ran_at a + 50 /\
    ~ spaced 50 (attempts st).
Proof.
  eexists _, _, _. split; [lia|].
  split; [vm_compute; reflexivity|].
  split; [reflexivity|]. split; [reflexivity|]. split; [reflexivity|].
  split; [simpl; lia|]. simpl. lia.
Qed.

Example retry_three_failures :
  attempts after_three_failures =
    [ mkAttempt 0 0; mkAttempt 0 50; mkAttempt 50 130 ] /\
  settled after_three_failures = Some (Rejected "third") /\
  orderly three_failures (retry (mkOptions (Some 2) (Some 50))) /\
  only_retries three_failures /\
  exec [Retry "first"; Elapse 49; Timeout]
       (retry (V:=JsVal) (mkOptions (Some 2) (Some 50))) = None.
Proof.
  split; [reflexivity|]. split; [reflexivity|].
  split; [simpl; tauto|]. split; [repeat constructor|].
  vm_compute. reflexivity.
Qed.

End RetryFacts.

(** ** The HTTP request orchestrator *)

Module RequestFacts.
Import Json Request RequestExamples.

(** *** The arguments *)

(** C9. Called with a function in the place of the options, [request]
    takes the function for the callback and the empty object for the
    options, whatever the third argument.  [request(url, f)] sets up what
    [request(url, {}, f)] sets up, so that every attempt is the same for
    both; when the URL is one, the request is set up, with [f] the callback
    its attempts close over, and with what the empty object gives: no body,
    no headers, the default budget and interval, nothing else set.  Then
    [f] is called with the decoded body and the message of a response with
    a 2xx status, and what it gives is the value resolved (the body in the
    place of [undefined] and [null]): for such a response received in one
    chunk by the first attempt, the request is resolved with it. *)
Theorem request_function_as_options
    (new_URL : string -> option URL) (proxyAgentFor : string -> JsVal)
    (url : string) (f : Callback) (callback : option Callback) (u : URL) :
  new_URL url = Some u ->
  arguments (OptionsFunction f) callback = (empty_options, Some f) /\
  request new_URL proxyAgentFor url (OptionsFunction f) callback =
  request new_URL proxyAgentFor url (OptionsObject empty_options) (Some f) /\
  exists p,
    request new_URL proxyAgentFor url (OptionsFunction f) callback = Some p /\
    closed_callback p = Some f /\
    payload p = JUndefined /\
    request_headers (requestOptions p) = None /\
    request_rest (requestOptions p) = [] /\
    closed_retryNotFound p = JUndefined /\
    closed_buffer p = JUndefined /\
    engine p = Retry.retry (Retry.mkOptions None None) /\
    (forall bytes res st value,
       200 <= statusCode res < 300 ->
       f (body_of (decode JUndefined bytes)) res = Returns value ->
       handleFinished p bytes res st =
         (st, [],
          Some (Retry.Resolve
                  (nullish value (body_of (decode JUndefined bytes)))))) /\
    (forall status text value,
       200 <= status < 300 ->
       f (body_of (decode JUndefined text)) (mkRes status "" ∅)
         = Returns value ->
       exists r,
         happenings p (answered 0 status text) (start p) = Some r /\
         Retry.settled (retrying r) =
           Some (Retry.Resolved
                   (nullish value (body_of (decode JUndefined text))))).
Proof.
  intros Hu. split; [reflexivity|]. split; [reflexivity|].
  unfold request. simpl. rewrite Hu. simpl.
  eexists. split; [reflexivity|]. simpl.
  repeat (split; [reflexivity|]).
  assert (Hfin : forall bytes res st value,
            200 <= statusCode res < 300 ->
            f (body_of (decode JUndefined bytes)) res = Returns value ->
            forall p, closed_callback p = Some f ->
              closed_buffer p = JUndefined ->
              handleFinished p bytes res st =
                (st, [],
                 Some (Retry.Resolve
                         (nullish value
                            (body_of (decode JUndefined bytes)))))).
  { intros bytes res st value [H2 H3] Hf p Hc Hb.
    unfold handleFinished, finished_try. rewrite Hc, Hb.
    apply Z.leb_le in H2. apply Z.ltb_lt in H3. rewrite H2, H3. simpl.
    rewrite Hf. reflexivity. }
  split.
  - intros bytes res st value Hs Hf. apply Hfin; auto.
  - intros status text value Hs Hf.
    unfold answered, happenings, happen, start, listen.
    cbn [closures retrying engine lookup list_lookup incoming handled
         list_insert insert String.concat].
    erewrite Hfin; [|exact Hs|exact Hf|reflexivity|reflexivity].
    cbn [Retry.step closures retrying list_insert insert].
    eexists. split; reflexivity.
Qed.

Lemma request_function_as_options_witness :
  exists p r,
    request example_URL no_proxy "http://example.test/items"
      (OptionsFunction name_callback) None = Some p /\
    closed_callback p = Some name_callback /\
    happenings p (answered 0 200 named_text) (start p) = Some r /\
    Retry.settled (retrying r) = Some (Retry.Resolved (JStr "percy")).
Proof.
  destruct (request_function_as_options example_URL no_proxy
              "http://example.test/items" name_callback None
              {| protocol := "http:"; hostname := "example.test";
                 port := ""; pathname := "/items"; search := "";
                 hash := "" |} eq_refl)
    as (_ & _ & p & Hp & Hc & _ & _ & _ & _ & _ & _ & _ & Hrun).
  destruct (Hrun 200 named_text (JStr "percy")) as (r & Hr & Hs).
  - lia.
  - vm_compute. reflexivity.
  - exists p, r. repeat split; assumption.
Defined.

(** *** The body sent *)

Lemma stringify_defined (v : JsVal) :
  is_undefined v = false -> exists text, JSON_stringify v = Some text.
Proof. destruct v; simpl; intros H; try discriminate; eauto. Qed.

Lemma with_json_content_type_lookup (headers : option Headers) (k : string) :
  with_json_content_type headers !! k =
    match default ∅ headers !! k with
    | Some v => Some v
    | None => if decide (k = "Content-Type")
              then Some "application/json" else None
    end.
Proof.
  unfold with_json_content_type.
  destruct (default ∅ headers !! k) as [v|] eqn:E.
  - apply lookup_union_Some_l. assumption.
  - rewrite lookup_union_r by assumption.
    destruct (decide (k = "Content-Type")) as [->|Hne].
    + apply lookup_singleton_eq.
    + apply lookup_singleton_ne. congruence.
Qed.

(** C7. A body that is there and is not a string is given to the
    transport as its JSON text, and the headers get [Content-Type:
    application/json] unless the options have a [Content-Type] header,
    which is kept; the other headers are the caller's.  A body that is a
    string is sent as it is, with the caller's headers and none added. *)
Theorem request_body_serialized
    (new_URL : string -> option URL) (proxyAgentFor : string -> JsVal)
    (url : string) (o : Options) (callback : option Callback)
    (p : Prepared) :
  request new_URL proxyAgentFor url (OptionsObject o) callback = Some p ->
  (is_undefined (body o) = false -> is_string (body o) = false ->
   exists text sent,
     JSON_stringify (body o) = Some text /\
     payload p = JStr text /\
     request_headers (requestOptions p) = Some sent /\
     sent !! "Content-Type" =
       Some (default "application/json"
                     (default ∅ (headers o) !! "Content-Type")) /\
     (forall k, k <> "Content-Type" ->
                sent !! k = default ∅ (headers o) !! k)) /\
  (forall text, body o = JStr text ->
     payload p = JStr text /\
     request_headers (requestOptions p) = headers o).
Proof.
  unfold request. simpl. destruct (new_URL url) as [u|]; [|discriminate].
  destruct (stringify_body (body o) (headers o)) as [b h] eqn:Hb.
  intros [= <-]. simpl. unfold stringify_body in Hb. split.
  - intros Hu Hs. rewrite Hu, Hs in Hb. simpl in Hb.
    destruct (stringify_defined _ Hu) as [text Ht]. rewrite Ht in Hb.
    injection Hb as <- <-. exists text, (with_json_content_type (headers o)).
    repeat split; auto.
    + rewrite with_json_content_type_lookup.
      destruct (default ∅ (headers o) !! "Content-Type"); reflexivity.
    + intros k Hk. rewrite with_json_content_type_lookup.
      destruct (default ∅ (headers o) !! k); [reflexivity|].
      destruct (decide (k = "Content-Type")); [contradiction|reflexivity].
  - intros text Ht. rewrite Ht in Hb. simpl in Hb.
    injection Hb as <- <-. auto.
Qed.

Lemma request_body_serialized_witness :
  exists p,
    items_request items_options = Some p /\
    (is_undefined (body items_options) = false ->
     is_string (body items_options) = false ->
     exists text sent,
       JSON_stringify (body items_options) = Some text /\
       payload p = JStr text /\
       request_headers (requestOptions p) = Some sent /\
       sent !! "Content-Type" =
         Some (default "application/json"
                       (default ∅ (headers items_options)
                          !! "Content-Type")) /\
       (forall k, k <> "Content-Type" ->
                  sent !! k = default ∅ (headers items_options) !! k)) /\
    (forall text, body items_options = JStr text ->
       payload p = JStr text /\
       request_headers (requestOptions p) = headers items_options).
Proof.
  destruct (items_request items_options) as [p|] eqn:Hp;
    [|discriminate Hp].
  exists p. split; [reflexivity|].
  exact (request_body_serialized example_URL no_proxy
           "http://example.test/items" items_options None p Hp).
Defined.

(** *** The body received *)

(** C2, as stated, fails: a body that is JSON text is parsed also when a
    buffer was asked for.  A 200 response with the body [[1,2]], received
    in two chunks by a request with [buffer: true], resolves with the
    array and not with the bytes. *)
Lemma request_buffer_json_parsed :
  exists p,
    items_request
      {| body := JUndefined; headers := None; retries := None;
         retryNotFound := JUndefined; interval := None;
         noProxy := JUndefined; buffer := JBool true; agent := JUndefined;
         rest := [] |} = Some p /\
    JSON_parse "[1,2]" = Some (JArr [JNum 1 0; JNum 2 0]) /\
    decode (JBool true) "[1,2]" = Structured (JArr [JNum 1 0; JNum 2 0]) /\
    body_of (decode (JBool true) "[1,2]") <> JBuffer "[1,2]" /\
    attempt p [OnResponse (mkRes 200 "OK" ∅); OnData "[1,"; OnData "2]";
               OnEnd] fresh =
      Some ({| handled := false;
               incoming := Some (mkRes 200 "OK" ∅, ["[1,"; "2]"]) |}, [],
            [Retry.Resolve (JArr [JNum 1 0; JNum 2 0])]).
Proof.
  eexists. split; [reflexivity|].
  split; [vm_compute; reflexivity|].
  split; [vm_compute; reflexivity|].
  split; [vm_compute; discriminate|].
  vm_compute. reflexivity.
Qed.

Lemma finished_response (p : Prepared) (bytes : string) (res : Res)
    (st st' : Attempt) (raised : list Error) (signal : option Signal) :
  handleFinished p bytes res st = (st', raised, signal) ->
  forall error, error ∈ raised ->
    response error =
      Some {| response_statusCode := statusCode res;
              response_headers := res_headers res;
              response_body := body_of (decode (closed_buffer p) bytes) |}.
Proof.
  unfold handleFinished.
  destruct (finished_try _ _ _ _) as [v|[e|]]; try (intros [= <- <- <-]).
  - intros error H. inversion H.
  - destruct (handleError _ _ _) as [st1 sig]. intros [= <- <- <-].
    intros error H. apply list_elem_of_singleton in H. subst. reflexivity.
  - intros error H. inversion H.
Qed.

(** C2, amended.  The decoded body is structured data exactly when the raw
    text parses as JSON, whether or not a buffer was asked for, and is then
    the parsed value.  When the text does not parse, the body is the raw
    bytes if [buffer] is [true] and the raw text otherwise.  That body is
    the one in the [response] of every error the end of the message
    raises. *)
Theorem request_body_decoded (buffer : JsVal) (bytes : string) :
  ((exists value, decode buffer bytes = Structured value) <->
   (exists value, JSON_parse bytes = Some value)) /\
  (forall value, JSON_parse bytes = Some value ->
     body_of (decode buffer bytes) = value) /\
  (JSON_parse bytes = None ->
     body_of (decode buffer bytes) =
       if is_true buffer then JBuffer bytes else JStr bytes) /\
  (forall p res st st' raised signal error,
     closed_buffer p = buffer ->
     handleFinished p bytes res st = (st', raised, signal) ->
     error ∈ raised ->
     response_body <$> response error =
       Some (body_of (decode buffer bytes))).
Proof.
  unfold decode. destruct (JSON_parse bytes) as [v|] eqn:Hv.
  - split; [split; eauto|]. split; [intros ? [= <-]; reflexivity|].
    split; [discriminate|].
    intros p res st st' raised signal error <- H Hin.
    rewrite (finished_response _ _ _ _ _ _ _ H error Hin). simpl.
    unfold decode. rewrite Hv. reflexivity.
  - split.
    { split; intros [value H]; [|discriminate].
      destruct (is_true buffer); discriminate. }
    split; [discriminate|]. split.
    { intros _. destruct (is_true buffer); reflexivity. }
    intros p res st st' raised signal error <- H Hin.
    rewrite (finished_response _ _ _ _ _ _ _ H error Hin). simpl.
    unfold decode. rewrite Hv. reflexivity.
Qed.

(** *** Errors *)



(** [handleError] on a closure that is marked does nothing. *)
Lemma handleError_handled (retryNotFound : JsVal) (error : Error)
    (st : Attempt) :
  handled st = true -> handleError retryNotFound error st = (st, None).
Proof. unfold handleError. intros ->. reflexivity. Qed.

Lemma listen_once (p : Prepared) (ev : Incoming) (st st' : Attempt)
    (raised : list Error) (signal : option Signal) :
  listen p ev st = Some (st', raised, signal) ->
  (handled st = true ->
     handled st' = true /\
     forall s, signal = Some s -> is_failure s = false) /\
  (handled st = false ->
     match raised with
     | [] => handled st' = false /\
             forall s, signal = Some s -> is_failure s = false
     | error :: _ =>
         handled st' = true /\
         signal = Some (answer (closed_retryNotFound p) error)
     end).
Proof.
  unfold listen, handleFinished, handleError.
  destruct ev as [e|res|chunk| |e];
    try (destruct (incoming st) as [[res0 chunks]|]);
    try (intros H; discriminate H);
    try (destruct (finished_try _ _ _ _) as [v|[e|]]);
    destruct (handled st) eqn:Hh; simpl;
    intros [= <- <- <-]; simpl; (split; intros Hx; try discriminate Hx);
    repeat split; auto; intros s [= <-]; reflexivity.
Qed.

Lemma answer_failure (retryNotFound : JsVal) (error : Error) :
  is_failure (answer retryNotFound error) = true.
Proof. unfold answer. destruct (shouldRetry _ _); reflexivity. Qed.

Lemma attempt_once (p : Prepared) (events : list Incoming) :
  forall st st' raised signals,
    attempt p events st = Some (st', raised, signals) ->
    (handled st = true ->
       handled st' = true /\ filter is_failure signals = []) /\
    (handled st = false ->
       (handled st' = true <-> raised <> []) /\
       filter is_failure signals =
         match raised with
         | [] => []
         | error :: _ => [answer (closed_retryNotFound p) error]
         end).
Proof.
  induction events as [|ev rest IH]; simpl; intros st st' raised signals H.
  - revert H. intros [= <- <- <-]. split; intros Hh; [auto|].
    split; [|reflexivity]. rewrite Hh. split; [discriminate|congruence].
  - destruct (listen p ev st) as [[[st1 raised1] signal]|] eqn:Hl;
      [|discriminate].
    destruct (attempt p rest st1) as [[[st2 raised2] signals2]|] eqn:Ha;
      [|discriminate].
    revert H. intros [= <- <- <-].
    destruct (listen_once _ _ _ _ _ _ Hl) as [Lt Lf].
    destruct (IH _ _ _ _ Ha) as [It If].
    assert (Hsig : forall keep,
               (forall s, signal = Some s -> is_failure s = false) ->
               filter is_failure
                 match signal with
                 | Some s => s :: signals2
                 | None => signals2
                 end = keep -> filter is_failure signals2 = keep).
    { intros keep Hno <-. destruct signal as [s|]; [|reflexivity].
      rewrite filter_cons, (Hno s eq_refl). reflexivity. }
    split; intros Hh.
    + destruct (Lt Hh) as [H1 Hno]. destruct (It H1) as [H2 Hf].
      split; [assumption|]. destruct signal as [s|]; [|assumption].
      rewrite filter_cons, (Hno s eq_refl). assumption.
    + specialize (Lf Hh). destruct raised1 as [|error more].
      * destruct Lf as [H1 Hno]. destruct (If H1) as [H2 Hf]. simpl.
        split; [assumption|]. destruct signal as [s|]; [|assumption].
        rewrite filter_cons, (Hno s eq_refl). assumption.
      * destruct Lf as [H1 ->]. destruct (It H1) as [H2 Hf]. simpl.
        split; [split; [discriminate|auto]|].
        rewrite filter_cons, answer_failure, Hf. reflexivity.
Qed.

(** C8. In one attempt, however many of the request's error event, the
    message's error event and the end of the message give an error to
    [handleError], the attempt sends the retry engine one retry or reject
    and no more: the answer to the first error.  The closure is then
    marked, and on a marked closure [handleError] changes nothing and
    sends nothing. *)
Theorem request_error_handled_once
    (p : Prepared) (events : list Incoming) (st : Attempt)
    (raised : list Error) (signals : list Signal) :
  attempt p events fresh = Some (st, raised, signals) ->
  filter is_failure signals =
    match raised with
    | [] => []
    | error :: _ =>
        [if shouldRetry (closed_retryNotFound p) error
         then Retry.Retry error else Retry.Reject error]
    end /\
  (handled st = true <-> raised <> []) /\
  (handled st = true ->
   forall error, handleError (closed_retryNotFound p) error st = (st, None)).
Proof.
  intros H. destruct (attempt_once _ _ _ _ _ _ H) as [_ Hf].
  destruct (Hf eq_refl) as [Hh Hs]. split; [exact Hs|].
  split; [exact Hh|]. intros Hm error. apply handleError_handled, Hm.
Qed.

Lemma request_error_handled_once_witness :
  exists p st raised signals,
    items_request items_options = Some p /\
    attempt p failing_thrice fresh = Some (st, raised, signals) /\
    length raised = 3%nat /\
    filter is_failure signals =
      match raised with
      | [] => []
      | error :: _ =>
          [if shouldRetry (closed_retryNotFound p) error
           then Retry.Retry error else Retry.Reject error]
      end /\
    (handled st = true <-> raised <> []) /\
    (handled st = true ->
     forall error,
       handleError (closed_retryNotFound p) error st = (st, None)).
Proof.
  eexists _, _, _, _.
  split; [vm_compute; reflexivity|].
  match goal with
  | |- ?A /\ _ => assert (Ha : A) by (vm_compute; reflexivity)
  end.
  split; [exact Ha|]. split; [reflexivity|].
  exact (request_error_handled_once _ _ _ _ _ Ha).
Defined.

(** *** Whole requests *)

(** Status 201 with the body [{"ok":true}]: resolved with the parsed
    body. *)
Example request_created :
  outcome_of
    (run_request items_options
       (answered 0 201
          ("{" +:+ quoted "ok" +:+ ":true}"))) =
  Some (Retry.Resolved (JObj [("ok", JBool true)])).
Proof. vm_compute. reflexivity. Qed.

(** Status 503 four times, then 200 with the body ["done"]: resolved with
    the text after five calls. *)
Example request_recovers :
  let r :=
    run_request items_options
      (answered 0 503 "" ++ pause ++ answered 1 503 "" ++ pause ++
       answered 2 503 "" ++ pause ++ answered 3 503 "" ++ pause ++
       answered 4 200 (quoted "done")) in
  outcome_of r = Some (Retry.Resolved (JStr "done")) /\ calls_of r = 5%nat.
Proof. vm_compute. auto. Qed.

(** Status 500 every time: six calls under the default budget, then
    rejected with an error whose response has the status 500. *)
Example request_gives_up :
  let r :=
    run_request items_options
      (answered 0 500 "" ++ pause ++ answered 1 500 "" ++ pause ++
       answered 2 500 "" ++ pause ++ answered 3 500 "" ++ pause ++
       answered 4 500 "" ++ pause ++ answered 5 500 "") in
  calls_of r = 6%nat /\
  exists error,
    outcome_of r = Some (Retry.Rejected error) /\
    response_statusCode <$> response error = Some 500.
Proof. vm_compute. eauto. Qed.

(** Status 404 without [retryNotFound]: rejected at the first call; a
    refused connection is retried, a denied one is not. *)
Example request_not_found :
  let r := run_request items_options (answered 0 404 "") in
  calls_of r = 1%nat /\
  exists error, outcome_of r = Some (Retry.Rejected error) /\
                Retry.timers <$> (retrying <$> r) = Some [].
Proof. vm_compute. eauto. Qed.

Example request_refused_or_denied :
  let refused := mkError "Error" (JStr "refused") (JStr "ECONNREFUSED") None in
  let denied := mkError "Error" (JStr "denied") (JStr "EACCES") None in
  outcome_of (run_request items_options
                [Transport 0 (RequestError refused)]) = None /\
  calls_of (run_request items_options
              ([Transport 0 (RequestError refused)] ++ pause)) = 2%nat /\
  outcome_of (run_request items_options
                [Transport 0 (RequestError denied)]) =
    Some (Retry.Rejected denied).
Proof. vm_compute. auto. Qed.

End RequestFacts.

(** ** More on the concurrency pool *)

Module PoolMore.
Import Pool PoolExamples MoreExamples PoolFacts.

Lemma proceed_from_closed N it st :
  N <= queue st -> proceed_from N it st = st.
Proof.
  intros H. destruct it; simpl;
    destruct (queue st <? N) eqn:E; auto; apply Z.ltb_lt in E; lia.
Qed.

(** X1. With a ceiling below one the pool does nothing at all: it takes
    nothing from the generator, launches nothing, and its promise stays
    pending for ever, no settlement being possible; also when the generator
    is empty. *)
Theorem pool_without_capacity
    (concurrency : Z) (generated : list Promise) (st : State) :
  concurrency <= 0 ->
  reachable generated concurrency st ->
  st = initial generated /\ settled st = None /\
  iterator st = generated /\ forall st', ~ step concurrency st st'.
Proof.
  intros HN [k Hk].
  assert (Hp : pool generated concurrency = initial generated).
  { apply proceed_from_closed. simpl. lia. }
  assert (Hstuck : forall st', ~ step concurrency (initial generated) st').
  { intros st' Hs. inversion Hs as [i a b Hi Ea Eb].
    destruct (on_settle_inv _ _ _ _ Hi) as (p & Hin & _).
    simpl in Hin. destruct i; discriminate Hin. }
  assert (E : st = initial generated).
  { rewrite Hp in Hk. induction Hk as [|k st' st'' _ IH Hs]; [reflexivity|].
    subst st'. destruct (Hstuck _ Hs). }
  subst st. auto.
Qed.

Lemma pool_without_capacity_witness :
  pool [] 0 = initial [] /\ settled (pool [] 0) = None /\
  iterator (pool [] 0) = [] /\ forall st', ~ step 0 (pool [] 0) st'.
Proof.
  apply (pool_without_capacity 0 [] (pool [] 0)).
  - lia.
  - exists 0%nat. constructor.
Defined.

Lemma proceed_from_full N it :
  forall st, iterator st = it -> queue st <= N ->
    truthy (err st) = false ->
    queue (proceed_from N it st) = N \/ iterator (proceed_from N it st) = [].
Proof.
  induction it as [|p rest IH]; intros st Hit Hq He; simpl;
    destruct (queue st <? N) eqn:Hlt;
    try (left; apply Z.ltb_ge in Hlt; lia).
  - right. destruct (finish_fields (set_iterator [] st)) as (-> & _).
    reflexivity.
  - rewrite He. apply Z.ltb_lt in Hlt. apply IH; simpl; auto. lia.
Qed.

(** X2. The pool keeps the ceiling filled: whenever a callback of the pool
    has ended with no error latched, either as many promises are in flight
    as the ceiling allows or the generator has nothing left. *)
Theorem pool_keeps_ceiling_filled
    (concurrency : Z) (generated : list Promise) (st : State) :
  0 <= concurrency ->
  reachable generated concurrency st ->
  truthy (err st) = false ->
  queue st = concurrency \/ iterator st = [].
Proof.
  intros HN [k Hk] He. destruct Hk as [|k st' st'' Hk Hs].
  - apply proceed_from_full; simpl; auto.
  - assert (Hc : consistent concurrency generated st').
    { apply reachable_consistent. exists k. assumption. }
    destruct Hs as [i st' st'' Hi].
    destruct (on_settle_inv _ _ _ _ Hi) as (p & Hp & ->).
    pose proof (c_bound _ _ _ Hc) as Hb.
    unfold handler, proceed in *.
    destruct (outcome p) as [v|e];
      match type of He with
      | context [proceed_from ?n ?it ?s] =>
          destruct (proceed_from_frame n it s) as (_ & Ee & _);
          rewrite Ee in He; apply proceed_from_full; simpl; auto; lia
      end.
Qed.

Lemma pool_keeps_ceiling_filled_witness :
  queue (pool three_fulfilled 2) = 2 \/ iterator (pool three_fulfilled 2) = [].
Proof.
  apply (pool_keeps_ceiling_filled 2 three_fulfilled).
  - lia.
  - exists 0%nat. constructor.
  - reflexivity.
Defined.

(** X3. The results are collected in the order in which the promises
    settle, not the order in which the generator gave them: in every run
    [ret] holds the values of the fulfilled promises in the order their
    handlers ran; and a pool that resolves has emptied the generator, has
    nothing in flight and resolves with exactly those values. *)
Theorem pool_results_in_settlement_order
    (concurrency : Z) (generated : list Promise) (st : State) :
  reachable generated concurrency st ->
  ret st = values (finished st) /\
  forall r, settled st = Some (Resolved r) ->
    r = values (finished st) /\ iterator st = [] /\ inflight st = [].
Proof.
  intros Hr. pose proof (reachable_consistent _ _ _ Hr) as Hc.
  split; [apply (c_ret _ _ _ Hc)|].
  intros r Hs. destruct (c_settled _ _ _ Hc _ Hs) as (Hi & Hv & Hit).
  unfold verdict in Hv. destruct (truthy (err st)); [discriminate|].
  injection Hv as ->. rewrite (c_ret _ _ _ Hc). auto.
Qed.

Lemma pool_results_in_settlement_order_witness :
  ret second_first = values (finished second_first) /\
  forall r, settled second_first = Some (Resolved r) ->
    r = values (finished second_first) /\ iterator second_first = [] /\
    inflight second_first = [].
Proof.
  apply (pool_results_in_settlement_order 2 three_fulfilled second_first).
  apply (run_reachable 2 three_fulfilled [1; 0; 0]%nat).
  vm_compute. reflexivity.
Defined.

Example pool_second_first :
  settled second_first = Some (Resolved [JStr "b"; JStr "a"; JStr "c"]).
Proof. vm_compute. reflexivity. Qed.

(** X4. Under a ceiling of at least one the pool's promise is pending
    exactly while a promise is in flight, whatever the outcomes: a run
    cannot stop with the pool unsettled, and it has no more settlements than
    the generator has promises. *)
Theorem pool_pending_while_in_flight
    (concurrency : Z) (generated : list Promise) (k : nat) (st : State) :
  1 <= concurrency ->
  steps concurrency (pool generated concurrency) k st ->
  (settled st = None <-> inflight st <> []) /\
  (settled st = None -> exists st', step concurrency st st') /\
  (k <= length generated)%nat.
Proof.
  intros HN Hk.
  assert (Hr : reachable generated concurrency st) by (exists k; assumption).
  pose proof (reachable_consistent _ _ _ Hr) as Hc.
  split; [split|split].
  - apply (reachable_pending concurrency generated); assumption.
  - intros Hi. destruct (settled st) as [o|] eqn:Hs; [|reflexivity].
    destruct (c_settled _ _ _ Hc o Hs) as (E & _). contradiction.
  - intros Hs. apply pending_step.
    apply (reachable_pending concurrency generated); assumption.
  - eapply steps_bounded. eassumption.
Qed.

Lemma pool_pending_while_in_flight_witness :
  (settled (pool two_rejected 2) = None <->
   inflight (pool two_rejected 2) <> []) /\
  (settled (pool two_rejected 2) = None ->
   exists st', step 2 (pool two_rejected 2) st') /\
  (0 <= length two_rejected)%nat.
Proof.
  apply (pool_pending_while_in_flight 2 two_rejected 0).
  - lia.
  - constructor.
Defined.

End PoolMore.

(** ** More on the retry engine *)

Module RetryMore.
Import Retry MoreExamples RetryFacts.

Section Engine.

Context {V E : Type}.

Implicit Types (st : State V E) (ev : Event V E).

Lemma spent_step ev st st' :
  retries st <= 0 -> timers st = [] -> step ev st = Some st' ->
  retries st' <= 0 /\ timers st' = [] /\ attempts st' = attempts st.
Proof.
  intros Hr Ht Hstep. destruct ev as [d| |v|e|e]; simpl in Hstep.
  - destruct (0 <=? d); [|discriminate]. injection Hstep as <-. auto.
  - rewrite Ht in Hstep. discriminate.
  - injection Hstep as <-. unfold resolve.
    destruct (settle_fields (Resolved v) st) as (-> & _ & -> & _ & ->). auto.
  - injection Hstep as <-. unfold reject.
    destruct (settle_fields (Rejected e) st) as (-> & _ & -> & _ & ->). auto.
  - injection Hstep as <-. unfold retry_signal.
    destruct (retries st >? 0) eqn:Hg; [apply Z.gtb_lt in Hg; lia|].
    unfold reject.
    match goal with
    | |- context [settle ?o ?s] =>
        destruct (settle_fields o s) as (-> & _ & -> & _ & ->)
    end. simpl. split; [lia|auto].
Qed.

Lemma spent_exec (events : list (Event V E)) :
  forall st st', retries st <= 0 -> timers st = [] ->
    exec events st = Some st' ->
    timers st' = [] /\ attempts st' = attempts st.
Proof.
  induction events as [|ev rest IH]; simpl; intros st st' Hr Ht H.
  - injection H as <-. auto.
  - destruct (step ev st) as [st1|] eqn:Hs; [|discriminate].
    destruct (spent_step _ _ _ Hr Ht Hs) as (Hr1 & Ht1 & Ea).
    destruct (IH _ _ Hr1 Ht1 H) as (Ht' & Ea'). split; congruence.
Qed.

(** X5. With a budget of zero or below, the operation is called once and
    never again: no timer is ever set, whatever the operation does; and when
    it does nothing but ask for retries, the promise is rejected with the
    first error it passed. *)
Theorem retry_without_budget
    (R i : Z) (events : list (Event V E)) (st : State V E) :
  R <= 0 ->
  exec events (retry (mkOptions (Some R) (Some i))) = Some st ->
  length (attempts st) = 1%nat /\ timers st = [] /\
  (only_retries events -> settled st = Rejected <$> head (asked events)).
Proof.
  intros HR Hrun.
  destruct (spent_exec events
              (retry (mkOptions (Some R) (Some i))) st HR eq_refl Hrun)
    as (Ht & Ea).
  rewrite Ea, Ht. split; [reflexivity|]. split; [reflexivity|].
  intros Hq. apply exhausted_exec in Hrun; [|assumption|reflexivity].
  rewrite Hrun. simpl. replace (Z.to_nat (Z.max 0 R)) with 0%nat by lia.
  destruct (asked events); reflexivity.
Qed.

(** X6. Settling the promise does not disarm a timer: with a retry pending,
    an operation that resolves is still called again when the timer fires,
    the promise staying resolved with the value; and whatever happens
    later, the outcome stays. *)
Theorem retry_timer_survives_resolve
    (st : State V E) (t : Z) (rest : list Z) (value : V) :
  timers st = t :: rest -> settled st = None ->
  exists st',
    exec [Resolve value; Elapse (Z.max 0 (t + interval st - now st));
          Timeout] st = Some st' /\
    settled st' = Some (Resolved value) /\
    length (attempts st') = S (length (attempts st)) /\
    forall later st'',
      exec later st' = Some st'' -> settled st'' = Some (Resolved value).
Proof.
  intros Ht Hs. simpl. unfold resolve, settle. rewrite Hs. simpl.
  destruct (0 <=? Z.max 0 (t + interval st - now st)) eqn:H0;
    [|apply Z.leb_gt in H0; lia].
  simpl. rewrite Ht.
  destruct (t + interval st <=? now st + Z.max 0 (t + interval st - now st))
    eqn:Hdue; [|apply Z.leb_gt in Hdue; lia].
  eexists. split; [reflexivity|]. simpl. split; [reflexivity|].
  split; [rewrite length_app; simpl; lia|].
  intros later st'' H. eapply settled_exec; [|exact H]. reflexivity.
Qed.

End Engine.

Lemma retry_without_budget_witness :
  exists st,
    exec [Retry "first"; Retry "second"]
         (retry (V:=JsVal) (mkOptions (Some (-1)) (Some 50))) = Some st /\
    length (attempts st) = 1%nat /\ timers st = [] /\
    (only_retries (V:=JsVal) [Retry "first"; Retry "second"] ->
     settled st =
       Rejected <$> head (asked (V:=JsVal) [Retry "first"; Retry "second"])).
Proof.
  eexists. split; [reflexivity|].
  apply (retry_without_budget (-1) 50 [Retry "first"; Retry "second"]).
  - lia.
  - reflexivity.
Defined.

Lemma retry_timer_survives_resolve_witness :
  exists st',
    exec [Resolve (JStr "late");
          Elapse (Z.max 0 (0 + interval retry_pending - now retry_pending));
          Timeout] retry_pending = Some st' /\
    settled st' = Some (Resolved (JStr "late")) /\
    length (attempts st') = S (length (attempts retry_pending)) /\
    forall later st'',
      exec later st' = Some st'' ->
      settled st'' = Some (Resolved (JStr "late")).
Proof.
  apply (retry_timer_survives_resolve retry_pending 0 [] (JStr "late"));
    reflexivity.
Defined.

End RetryMore.

(** ** More on the HTTP request orchestrator *)

Module RequestMore.
Import Json Request RequestExamples MoreExamples RequestFacts.

(** *** The agent *)


(** *** The end of the message *)

Lemma success_not_retried (retryNotFound : JsVal) (error : Error)
    (r : Response) :
  response error = Some r ->
  200 <= response_statusCode r < 300 ->
  shouldRetry retryNotFound error = false.
Proof.
  intros Hr Hs. unfold shouldRetry. rewrite Hr.
  destruct (response_statusCode r =? 404) eqn:E4;
    [apply Z.eqb_eq in E4; lia|].
  destruct (500 <=? response_statusCode r) eqn:E5;
    [apply Z.leb_le in E5; lia|].
  rewrite andb_false_r. reflexivity.
Qed.

(** X8. After a response with a 2xx status the value the callback gives is
    the value resolved, also when it is falsy ([false], zero, the empty
    string); only [undefined] and [null] give way to the decoded body. *)
Theorem request_callback_value
    (p : Prepared) (bytes : string) (res : Res) (st : Attempt)
    (f : Callback) (value : JsVal) :
  200 <= statusCode res < 300 ->
  closed_callback p = Some f ->
  f (body_of (decode (closed_buffer p) bytes)) res = Returns value ->
  (value = JUndefined \/ value = JNull ->
   handleFinished p bytes res st =
     (st, [], Some (Retry.Resolve (body_of (decode (closed_buffer p) bytes)))))
  /\
  (value <> JUndefined -> value <> JNull ->
   handleFinished p bytes res st = (st, [], Some (Retry.Resolve value))).
Proof.
  intros [H2 H3] Hf Hv. unfold handleFinished, finished_try.
  apply Z.leb_le in H2. apply Z.ltb_lt in H3. rewrite H2, H3, Hf, Hv. simpl.
  split.
  - intros [->| ->]; reflexivity.
  - intros Hu Hn. destruct value; try reflexivity; congruence.
Qed.

(** X9. A response with a 2xx status is never answered with the retry
    signal, whatever the callback does and whatever [retryNotFound] is.
    With no callback, and when the callback returns, the request is
    resolved; when the callback throws an error, on a closure that is not
    marked, that error is given to [reject] at once, with the status, the
    headers and the decoded body in its [response]. *)
Theorem request_success_never_retried
    (p : Prepared) (bytes : string) (res : Res) (st : Attempt) :
  200 <= statusCode res < 300 ->
  (forall error,
     (handleFinished p bytes res st).2 <> Some (Retry.Retry error)) /\
  (closed_callback p = None ->
   handleFinished p bytes res st =
     (st, [], Some (Retry.Resolve (body_of (decode (closed_buffer p) bytes)))))
  /\
  (forall f value,
     closed_callback p = Some f ->
     f (body_of (decode (closed_buffer p) bytes)) res = Returns value ->
     handleFinished p bytes res st =
       (st, [],
        Some (Retry.Resolve
                (nullish value (body_of (decode (closed_buffer p) bytes))))))
  /\
  (forall f e,
     closed_callback p = Some f ->
     f (body_of (decode (closed_buffer p) bytes)) res
       = Throws (ThrownError e) ->
     handled st = false ->
     exists error,
       handleFinished p bytes res st =
         ({| handled := true; incoming := incoming st |}, [error],
          Some (Retry.Reject error)) /\
       name error = name e /\ message error = message e /\
       code error = code e /\
       response error =
         Some {| response_statusCode := statusCode res;
                 response_headers := res_headers res;
                 response_body :=
                   body_of (decode (closed_buffer p) bytes) |}).
Proof.
  intros Hs.
  assert (Hok : (200 <=? statusCode res) && (statusCode res <? 300) = true).
  { destruct Hs as [H2 H3]. apply Z.leb_le in H2. apply Z.ltb_lt in H3.
    rewrite H2, H3. reflexivity. }
  split; [|split; [|split]].
  - intros error. unfold handleFinished.
    destruct (finished_try _ _ _ _) as [v|[e|]]; simpl; try discriminate.
    unfold handleError. destruct (handled st); simpl; [discriminate|].
    erewrite success_not_retried; [discriminate|simpl; reflexivity|].
    simpl. exact Hs.
  - intros Hc. unfold handleFinished, finished_try.
    rewrite Hok, Hc. reflexivity.
  - intros f value Hc Hf. unfold handleFinished, finished_try.
    rewrite Hok, Hc, Hf. reflexivity.
  - intros f e Hc Hf Hh. unfold handleFinished, finished_try.
    rewrite Hok, Hc, Hf. unfold handleError. rewrite Hh.
    erewrite success_not_retried; [|simpl; reflexivity|simpl; exact Hs].
    eexists. split; [reflexivity|]. simpl. auto.
Qed.

(** X10. After a response with a status outside [200, 300) the request
    never resolves and the callback has no part: on a closure that is not
    marked, one error is raised, with the status, the headers and the decoded
    body in its [response], and it is answered by the status alone: the retry
    signal for 500 to 599, and for 404 when [retryNotFound] is set, [reject]
    otherwise; whatever the body holds. *)
Theorem request_failure_by_status
    (p p' : Prepared) (bytes : string) (res : Res) (st : Attempt) :
  statusCode res < 200 \/ 300 <= statusCode res ->
  handled st = false ->
  closed_buffer p' = closed_buffer p ->
  closed_retryNotFound p' = closed_retryNotFound p ->
  handleFinished p' bytes res st = handleFinished p bytes res st /\
  exists error,
    handleFinished p bytes res st =
      ({| handled := true; incoming := incoming st |}, [error],
       Some (if (truthy (closed_retryNotFound p) && (statusCode res =? 404))
                || ((500 <=? statusCode res) && (statusCode res <? 600))
             then Retry.Retry error else Retry.Reject error)) /\
    response error =
      Some {| response_statusCode := statusCode res;
              response_headers := res_headers res;
              response_body := body_of (decode (closed_buffer p) bytes) |}.
Proof.
  intros Hs Hh Hb Hr.
  assert (Hno : (200 <=? statusCode res) && (statusCode res <? 300) = false).
  { destruct Hs as [Hs|Hs].
    - destruct (200 <=? statusCode res) eqn:E; [apply Z.leb_le in E; lia|].
      reflexivity.
    - destruct (statusCode res <? 300) eqn:E; [apply Z.ltb_lt in E; lia|].
      apply andb_false_r. }
  unfold handleFinished, finished_try, handleError.
  rewrite Hb, Hr, Hno, Hh. split; [reflexivity|].
  destruct (errors_detail _) as [d|]; eexists; split; reflexivity.
Qed.

(** *** Chunks *)

Lemma attempt_data (p : Prepared) (cs : list string) :
  forall st res chunks later,
    incoming st = Some (res, chunks) ->
    attempt p (map OnData cs ++ later) st =
    attempt p later
      {| handled := handled st; incoming := Some (res, chunks ++ cs) |}.
Proof.
  induction cs as [|c cs IH]; intros st res chunks later Hi; simpl.
  - rewrite app_nil_r, <- Hi. destruct st. reflexivity.
  - rewrite Hi.
    rewrite (IH {| handled := handled st;
                   incoming := Some (res, chunks ++ [c]) |}
                res (chunks ++ [c]) later eq_refl). simpl.
    rewrite <- app_assoc. simpl.
    destruct (attempt p later _) as [[[st2 raised] signals]|]; reflexivity.
Qed.

Lemma finished_observed (p : Prepared) (bytes : string) (res : Res)
    (st1 st2 : Attempt) :
  handled st1 = handled st2 ->
  observed
    (match handleFinished p bytes res st1 with
     | (st, raised, signal) =>
         Some (st, raised ++ [],
               match signal with Some s => [s] | None => [] end)
     end) =
  observed
    (match handleFinished p bytes res st2 with
     | (st, raised, signal) =>
         Some (st, raised ++ [],
               match signal with Some s => [s] | None => [] end)
     end).
Proof.
  intros H. unfold handleFinished, handleError.
  destruct (finished_try _ _ _ _) as [v|[e|]]; simpl.
  - rewrite H. reflexivity.
  - rewrite H. destruct (handled st2) eqn:H2; simpl; rewrite ?H, ?H2;
      reflexivity.
  - rewrite H. reflexivity.
Qed.

(** X11. How the body is cut into chunks does not matter: two series of
    data events with the same bytes in all, between the response and its
    end, raise the same errors and send the same signals. *)
Theorem request_chunks_joined
    (p : Prepared) (res : Res) (cs1 cs2 : list string) :
  String.concat "" cs1 = String.concat "" cs2 ->
  observed (attempt p (OnResponse res :: map OnData cs1 ++ [OnEnd]) fresh) =
  observed (attempt p (OnResponse res :: map OnData cs2 ++ [OnEnd]) fresh).
Proof.
  intros H.
  assert (E : forall cs,
             attempt p (OnResponse res :: map OnData cs ++ [OnEnd]) fresh =
             match handleFinished p (String.concat "" cs) res
                     {| handled := false; incoming := Some (res, cs) |} with
             | (st, raised, signal) =>
                 Some (st, raised ++ [],
                       match signal with Some s => [s] | None => [] end)
             end).
  { intros cs. simpl.
    rewrite (attempt_data p cs
               {| handled := false; incoming := Some (res, []) |}
               res [] [OnEnd] eq_refl).
    simpl.
    destruct (handleFinished _ _ _ _) as [[st raised] signal].
    destruct signal; reflexivity. }
  rewrite !E, H. apply finished_observed. reflexivity.
Qed.

(** *** The attempts of a request *)

Lemma listen_signal (p : Prepared) (ev : Incoming) (st st' : Attempt)
    (raised : list Error) (s : Signal) (e : Retry.State JsVal Error) :
  listen p ev st = Some (st', raised, Some s) ->
  forall e', Retry.step s e = Some e' ->
    Retry.attempts e' = Retry.attempts e.
Proof.
  intros Hl e' Hs.
  assert (Hk : match s with
               | Retry.Elapse _ | Retry.Timeout => False
               | _ => True
               end).
  { unfold listen, handleFinished, handleError in Hl.
    destruct ev as [x|res|chunk| |x];
      try (destruct (incoming st) as [[res0 chunks]|]);
      try discriminate Hl;
      try (destruct (finished_try _ _ _ _) as [v|[x|]]);
      try discriminate Hl;
      destruct (handled st); try discriminate Hl;
      revert Hl; intros [= <- <- <-];
      try exact I; destruct (shouldRetry _ _); exact I. }
  destruct s as [d| |v|x|x]; try contradiction; simpl in Hs;
    injection Hs as <-; unfold Retry.resolve, Retry.reject,
      Retry.retry_signal, Retry.reject;
    repeat match goal with
           | |- context [Retry.retries ?a >? 0] =>
               destruct (Retry.retries a >? 0)
           | |- context [Retry.settle ?o ?a] =>
               destruct (RetryFacts.settle_fields o a) as (_ & _ & _ & _ & ->)
           end; reflexivity.
Qed.

(** X12. A request makes one attempt more than its retry budget at most,
    six by default, whatever the transport and the timers do; and there is
    one closure for every call the retry engine made. *)
Theorem request_attempts_within_budget
    (new_URL : string -> option URL) (proxyAgentFor : string -> JsVal)
    (url : string) (o : Options) (callback : option Callback)
    (p : Prepared) (hs : list Happening) (r : Run) :
  request new_URL proxyAgentFor url (OptionsObject o) callback = Some p ->
  0 <= default 5 (retries o) ->
  happenings p hs (start p) = Some r ->
  length (closures r) = length (Retry.attempts (retrying r)) /\
  Z.of_nat (length (closures r)) <= default 5 (retries o) + 1.
Proof.
  intros Hp HR Hrun.
  set (R := default 5 (retries o)) in *.
  set (i := default 50 (interval o)).
  assert (He : engine p = Retry.retry (Retry.mkOptions (Some R) (Some i))).
  { revert Hp. unfold request. simpl.
    destruct (new_URL url); [|discriminate].
    destruct (stringify_body _ _). intros [= <-]. reflexivity. }
  assert (Inv : forall hs r0 r1,
             Retry.within R i (retrying r0) ->
             length (closures r0) = length (Retry.attempts (retrying r0)) ->
             happenings p hs r0 = Some r1 ->
             Retry.within R i (retrying r1) /\
             length (closures r1) = length (Retry.attempts (retrying r1))).
  { clear Hrun r hs. induction hs as [|h hs IH]; simpl; intros r0 r1 Hw Hl H.
    - injection H as <-. auto.
    - destruct (happen p h r0) as [r'|] eqn:Hh; [|discriminate].
      apply (IH r' r1); [| |exact H]; clear H IH;
        unfold happen in Hh; destruct h as [k ev|d|].
      + destruct (closures r0 !! k) as [st|]; [|discriminate].
        destruct (listen p ev st) as [[[st' raised] [s|]]|] eqn:Hli;
          try discriminate.
        * destruct (Retry.step s (retrying r0)) as [e|] eqn:Hs;
            [|discriminate].
          injection Hh as <-. simpl.
          eapply RetryFacts.within_step; eassumption.
        * injection Hh as <-. assumption.
      + destruct (Retry.step _ _) as [e|] eqn:Hs; [|discriminate].
        injection Hh as <-. simpl.
        eapply RetryFacts.within_step; eassumption.
      + destruct (Retry.step _ _) as [e|] eqn:Hs; [|discriminate].
        injection Hh as <-. simpl.
        eapply RetryFacts.within_step; eassumption.
      + destruct (closures r0 !! k) as [st|]; [|discriminate].
        destruct (listen p ev st) as [[[st' raised] [s|]]|] eqn:Hli;
          try discriminate.
        * destruct (Retry.step s (retrying r0)) as [e|] eqn:Hs;
            [|discriminate].
          injection Hh as <-. simpl. rewrite length_insert.
          rewrite (listen_signal _ _ _ _ _ _ _ Hli _ Hs). assumption.
        * injection Hh as <-. simpl. rewrite length_insert. assumption.
      + simpl in Hh. destruct (0 <=? d); [|discriminate].
        injection Hh as <-. assumption.
      + simpl in Hh. destruct (Retry.timers (retrying r0)); [discriminate|].
        destruct (_ <=? _); [|discriminate]. injection Hh as <-. simpl.
        rewrite !length_app. simpl. lia. }
  destruct (Inv hs (start p) r) as [Hw Hl]; auto.
  - simpl. rewrite He. apply RetryFacts.within_start. assumption.
  - simpl. rewrite He. reflexivity.
  - split; [assumption|]. rewrite Hl.
    pose proof (Retry.w_budget _ _ _ Hw). lia.
Qed.

Lemma request_callback_value_witness :
  exists p,
    items_counted = Some p /\
    (JNum 0 0 = JUndefined \/ JNum 0 0 = JNull ->
     handleFinished p "[1,2]" (mkRes 200 "OK" ∅) fresh =
       (fresh, [],
        Some (Retry.Resolve (body_of (decode (closed_buffer p) "[1,2]")))))
    /\
    (JNum 0 0 <> JUndefined -> JNum 0 0 <> JNull ->
     handleFinished p "[1,2]" (mkRes 200 "OK" ∅) fresh =
       (fresh, [], Some (Retry.Resolve (JNum 0 0)))).
Proof.
  eexists. split; [vm_compute; reflexivity|].
  apply (request_callback_value _ "[1,2]" (mkRes 200 "OK" ∅) fresh
           zero_callback (JNum 0 0)).
  - simpl. lia.
  - reflexivity.
  - reflexivity.
Defined.

Lemma request_success_never_retried_witness :
  exists p error,
    items_refused = Some p /\
    (forall e, (handleFinished p "[1,2]" (mkRes 201 "Created" ∅) fresh).2
               <> Some (Retry.Retry e)) /\
    handleFinished p "[1,2]" (mkRes 201 "Created" ∅) fresh =
      ({| handled := true; incoming := None |}, [error],
       Some (Retry.Reject error)) /\
    message error = JStr "no items" /\
    response_statusCode <$> response error = Some 201.
Proof.
  destruct items_refused as [p|] eqn:Hp; [|discriminate Hp].
  assert (Hs : 200 <= statusCode (mkRes 201 "Created" ∅) < 300)
    by (simpl; lia).
  destruct (request_success_never_retried p "[1,2]"
              (mkRes 201 "Created" ∅) fresh Hs)
    as (Hno & _ & _ & Hthrow).
  revert Hp. intros [= <-].
  destruct (Hthrow failing_callback
              (mkError "Error" (JStr "no items") JUndefined None)
              eq_refl eq_refl eq_refl)
    as (error & Hf & _ & Hm & _ & Hr).
  eexists. exists error. split; [reflexivity|]. split; [exact Hno|].
  split; [exact Hf|]. split; [exact Hm|]. rewrite Hr. reflexivity.
Defined.

Lemma request_failure_by_status_witness :
  exists p,
    items_request items_options = Some p /\
    handleFinished p "Not Found" (mkRes 404 "" ∅) fresh =
      handleFinished p "Not Found" (mkRes 404 "" ∅) fresh /\
    exists error,
      handleFinished p "Not Found" (mkRes 404 "" ∅) fresh =
        ({| handled := true; incoming := incoming fresh |}, [error],
         Some (if (truthy (closed_retryNotFound p)
                   && (statusCode (mkRes 404 "" ∅) =? 404))
                  || ((500 <=? statusCode (mkRes 404 "" ∅))
                      && (statusCode (mkRes 404 "" ∅) <? 600))
               then Retry.Retry error else Retry.Reject error)) /\
      response error =
        Some {| response_statusCode := statusCode (mkRes 404 "" ∅);
                response_headers := res_headers (mkRes 404 "" ∅);
                response_body :=
                  body_of (decode (closed_buffer p) "Not Found") |}.
Proof.
  eexists. split; [vm_compute; reflexivity|].
  apply (request_failure_by_status _ _ "Not Found" (mkRes 404 "" ∅) fresh).
  - right. simpl. lia.
  - reflexivity.
  - reflexivity.
  - reflexivity.
Defined.

Lemma request_chunks_joined_witness :
  exists p,
    items_request items_options = Some p /\
    observed (attempt p (OnResponse (mkRes 200 "OK" ∅)
                         :: map OnData ["[1,"; "2]"] ++ [OnEnd]) fresh) =
    observed (attempt p (OnResponse (mkRes 200 "OK" ∅)
                         :: map OnData ["[1,2]"] ++ [OnEnd]) fresh).
Proof.
  eexists. split; [vm_compute; reflexivity|].
  apply (request_chunks_joined _ (mkRes 200 "OK" ∅) ["[1,"; "2]"] ["[1,2]"]).
  reflexivity.
Defined.

Lemma request_attempts_within_budget_witness :
  exists p r,
    items_request items_options = Some p /\
    happenings p (answered 0 500 "" ++ pause ++ answered 1 503 "")
               (start p) = Some r /\
    length (closures r) = 2%nat /\
    length (closures r) = length (Retry.attempts (retrying r)) /\
    Z.of_nat (length (closures r)) <= default 5 (retries items_options) + 1.
Proof.
  eexists _, _. split; [vm_compute; reflexivity|].
  match goal with
  | |- ?A /\ _ => assert (Hr : A) by (vm_compute; reflexivity)
  end.
  split; [exact Hr|]. split; [reflexivity|].
  refine (request_attempts_within_budget example_URL no_proxy
            "http://example.test/items" items_options None _ _ _ _ _ Hr).
  - vm_compute. reflexivity.
  - simpl. lia.
Defined.

End RequestMore.

(** ** Query strings *)

Module QueryFacts.
Import Query MoreExamples.

Lemma append_assoc (a b c : string) : (a +:+ b) +:+ c = a +:+ b +:+ c.
Proof.
  induction a as [|x a IH]; [reflexivity|].
  change (String x ((a +:+ b) +:+ c) = String x (a +:+ b +:+ c)).
  f_equal. exact IH.
Qed.

Lemma concat_app (sep : string) (a b : list string) :
  a <> [] -> b <> [] ->
  String.concat sep (a ++ b) =
  String.concat sep a +:+ sep +:+ String.concat sep b.
Proof.
  intros Ha Hb. induction a as [|x [|y a] IH]; [congruence| |].
  - simpl. destruct b; [congruence|reflexivity].
  - change (String.concat sep ((x :: y :: a) ++ b))
      with (x +:+ sep +:+ String.concat sep ((y :: a) ++ b)).
    rewrite IH by discriminate.
    change (String.concat sep (x :: y :: a))
      with (x +:+ sep +:+ String.concat sep (y :: a)).
    rewrite !append_assoc. reflexivity.
Qed.

(** X13. The text for an object in two parts, neither empty, is the text
    for the first part, an ampersand, and the text for the second: the keys
    are written one after the other in the order of [Object.keys], and
    nothing of one key depends on another. *)
Theorem query_of_parts
    (ToString : JsVal -> string) (first second : list (string * JsVal))
    (arrayKey : JsVal) :
  first <> [] -> second <> [] ->
  buildQueryStringArrayFromObject ToString (first ++ second) arrayKey =
  buildQueryStringArrayFromObject ToString first arrayKey +:+ "&" +:+
  buildQueryStringArrayFromObject ToString second arrayKey.
Proof.
  intros H1 H2. unfold buildQueryStringArrayFromObject.
  rewrite map_app. apply concat_app.
  - destruct first; [congruence|discriminate].
  - destruct second; [congruence|discriminate].
Qed.

Lemma query_of_parts_witness :
  buildQueryStringArrayFromObject text_of
    ([("sha", JStr "abc")] ++ [("state", JArr [JStr "a"; JStr "b"])])
    (JStr "filter") =
  buildQueryStringArrayFromObject text_of [("sha", JStr "abc")]
    (JStr "filter") +:+ "&" +:+
  buildQueryStringArrayFromObject text_of
    [("state", JArr [JStr "a"; JStr "b"])] (JStr "filter").
Proof.
  apply (query_of_parts text_of [("sha", JStr "abc")]
           [("state", JArr [JStr "a"; JStr "b"])] (JStr "filter"));
    discriminate.
Defined.

Example query_of_filters :
  buildQueryStringArrayFromObject text_of
    [("sha", JStr "abc"); ("state", JArr [JStr "a"; JStr "b"])]
    (JStr "filter") =
  "filter[sha]=abc&filter[state][]=a&filter[state][]=b".
Proof. vm_compute. reflexivity. Qed.

(** X14. A key whose value is the empty array is not left out: it gives an
    empty piece, so that the text has an ampersand with nothing before it,
    or nothing after it; and alone it gives the empty text, as the empty
    object does. *)
Theorem query_of_empty_array
    (ToString : JsVal -> string) (obj : list (string * JsVal))
    (k : string) (arrayKey : JsVal) :
  obj <> [] ->
  buildQueryStringArrayFromObject ToString ((k, JArr []) :: obj) arrayKey =
    "&" +:+ buildQueryStringArrayFromObject ToString obj arrayKey /\
  buildQueryStringArrayFromObject ToString (obj ++ [(k, JArr [])]) arrayKey =
    buildQueryStringArrayFromObject ToString obj arrayKey +:+ "&" /\
  buildQueryStringArrayFromObject ToString [(k, JArr [])] arrayKey = "" /\
  buildQueryStringArrayFromObject ToString [] arrayKey = "".
Proof.
  intros Ho. split; [|split; [|split; reflexivity]].
  - unfold buildQueryStringArrayFromObject.
    destruct obj; [congruence|reflexivity].
  - unfold buildQueryStringArrayFromObject. rewrite map_app.
    rewrite concat_app; [reflexivity| |discriminate].
    destruct obj; [congruence|discriminate].
Qed.

Lemma query_of_empty_array_witness :
  buildQueryStringArrayFromObject text_of
    (("state", JArr []) :: [("sha", JStr "abc")]) (JStr "filter") =
    "&" +:+ buildQueryStringArrayFromObject text_of [("sha", JStr "abc")]
              (JStr "filter") /\
  buildQueryStringArrayFromObject text_of
    ([("sha", JStr "abc")] ++ [("state", JArr [])]) (JStr "filter") =
    buildQueryStringArrayFromObject text_of [("sha", JStr "abc")]
      (JStr "filter") +:+ "&" /\
  buildQueryStringArrayFromObject text_of [("state", JArr [])]
    (JStr "filter") = "" /\
  buildQueryStringArrayFromObject text_of [] (JStr "filter") = "".
Proof.
  apply (query_of_empty_array text_of [("sha", JStr "abc")] "state"
           (JStr "filter")).
  discriminate.
Defined.

End QueryFacts.

(** ** The package description of a directory *)

Module PackageFacts.
Import Json Package MoreExamples.

Lemma prefix_snoc_cases (d up : Path) (s : string) :
  d `prefix_of` up ++ [s] -> d = up ++ [s] \/ d `prefix_of` up.
Proof.
  intros [k Hk]. induction k as [|x k _] using rev_ind.
  - left. rewrite app_nil_r in Hk. congruence.
  - right. rewrite app_assoc in Hk. apply app_inj_tail in Hk as [-> _].
    exists k. reflexivity.
Qed.

Lemma snoc_differs (up : Path) (s : string) : up <> up ++ [s].
Proof.
  intros E. apply (f_equal length) in E. rewrite length_app in E.
  simpl in E. lia.
Qed.

Lemma prefix_same (d rel : Path) :
  d `prefix_of` rel -> rel `prefix_of` d -> d = rel.
Proof.
  intros H1 H2. apply prefix_length_eq; [assumption|].
  apply prefix_length. assumption.
Qed.

Lemma search_here (fs : Files) (home : Path) (f : nat) (rel : Path)
    (node : Node) :
  fs !! package_json rel = Some node -> search fs home f rel = read node.
Proof. intros H. destruct f; simpl; rewrite H; destruct node; reflexivity. Qed.

Lemma search_root (fs : Files) (home : Path) (f : nat) :
  fs !! package_json [] = None -> search fs home f [] = Undefined.
Proof. intros H. destruct f; simpl; rewrite H; reflexivity. Qed.

Lemma search_step (fs : Files) (home : Path) (f : nat) (up : Path)
    (s : string) :
  fs !! package_json (up ++ [s]) = None ->
  search fs home (S f) (up ++ [s]) =
    if bool_decide (up <> home) then search fs home f up else Undefined.
Proof.
  intros H. cbn [search]. rewrite H. unfold dirname.
  rewrite removelast_last.
  rewrite (bool_decide_eq_true_2 _ (snoc_differs up s)). reflexivity.
Qed.

Lemma reached_self (home rel : Path) : reached home rel rel.
Proof.
  split; [reflexivity|]. intros d' H1 H2 Hne. destruct Hne.
  apply prefix_same; assumption.
Qed.

Lemma reached_up (home d up : Path) (s : string) :
  reached home d up -> up <> home -> reached home d (up ++ [s]).
Proof.
  intros [Hp Hr] Hh. split; [apply prefix_app_r; assumption|].
  intros d' H1 H2 Hne. destruct (prefix_snoc_cases _ _ _ H2) as [E|H3];
    [contradiction|].
  destruct (decide (d' = up)) as [->|Hd]; [assumption|].
  apply Hr; assumption.
Qed.

Lemma reached_down (home d up : Path) (s : string) :
  reached home d (up ++ [s]) -> d <> up ++ [s] ->
  reached home d up /\ up <> home.
Proof.
  intros [Hp Hr] Hne. destruct (prefix_snoc_cases _ _ _ Hp) as [E|Hu];
    [contradiction|].
  split; [split; [assumption|]|].
  - intros d' H1 H2 Hd. apply Hr; [assumption|apply prefix_app_r; assumption|].
    intros ->. exact (prefix_snoc_not _ _ H2).
  - apply Hr; [assumption|apply prefix_app_r; reflexivity|].
    apply snoc_differs.
Qed.

Lemma none_between_self (fs : Files) (rel : Path) : none_between fs rel rel.
Proof.
  intros d' H1 H2 Hne. destruct Hne. symmetry.
  apply prefix_same; assumption.
Qed.

Lemma none_between_up (fs : Files) (d up : Path) (s : string) :
  none_between fs d up -> fs !! package_json (up ++ [s]) = None ->
  none_between fs d (up ++ [s]).
Proof.
  intros Hn Hs d' H1 H2 Hne.
  destruct (prefix_snoc_cases _ _ _ H2) as [->|H3]; [assumption|].
  apply Hn; assumption.
Qed.

Lemma none_between_down (fs : Files) (d up : Path) (s : string) :
  none_between fs d (up ++ [s]) -> none_between fs d up.
Proof.
  intros Hn d' H1 H2 Hne. apply Hn; [assumption| |assumption].
  apply prefix_app_r. assumption.
Qed.

Lemma search_found (fs : Files) (home : Path) (v : JsVal) (rel : Path) :
  forall f, (length rel <= f)%nat -> search fs home f rel = Found v ->
    exists d text,
      reached home d rel /\ fs !! package_json d = Some (File text) /\
      JSON_parse text = Some v /\ none_between fs d rel.
Proof.
  assert (Here : forall f rel node,
             fs !! package_json rel = Some node ->
             search fs home f rel = Found v ->
             exists d text,
               reached home d rel /\ fs !! package_json d = Some (File text) /\
               JSON_parse text = Some v /\ none_between fs d rel).
  { intros f r node Hn H. rewrite (search_here _ _ _ _ _ Hn) in H.
    destruct node as [text|]; [|discriminate]. simpl in H.
    destruct (JSON_parse text) as [w|] eqn:Hw; [|discriminate].
    injection H as ->. exists r, text.
    auto using reached_self, none_between_self. }
  induction rel as [|s up IH] using rev_ind; intros f Hf H.
  - destruct (fs !! package_json []) as [node|] eqn:Hn; [eauto|].
    rewrite search_root in H by assumption. discriminate.
  - destruct (fs !! package_json (up ++ [s])) as [node|] eqn:Hn; [eauto|].
    rewrite length_app in Hf. simpl in Hf.
    destruct f as [|f]; [lia|]. rewrite search_step in H by assumption.
    match type of H with
    | (if ?b then _ else _) = _ => destruct b eqn:Hh; [|discriminate H]
    end.
    apply bool_decide_eq_true_1 in Hh.
    destruct (IH f ltac:(lia) H) as (d & text & Hr & Hd & Hv & Hb).
    exists d, text. auto using reached_up, none_between_up.
Qed.

(** X15. The description [getPackageJSON] gives is that of the nearest
    directory with a [package.json], from the given one upwards: it is the
    parsed text of that file, no directory below it on the way has a
    [package.json], and neither that directory nor any passed on the way is
    the home directory, unless the search started there. *)
Theorem package_found_is_nearest
    (fs : Files) (home : Path) (rel : Location) (v : JsVal) :
  getPackageJSON fs home rel = Found v ->
  exists d text,
    reached home d (to_path rel) /\
    fs !! package_json d = Some (File text) /\
    JSON_parse text = Some v /\
    none_between fs d (to_path rel).
Proof.
  unfold getPackageJSON. apply search_found. reflexivity.
Qed.

Lemma search_nearest (fs : Files) (home d : Path) (node : Node)
    (rel : Path) :
  forall f, (length rel <= f)%nat ->
    reached home d rel -> fs !! package_json d = Some node ->
    none_between fs d rel -> search fs home f rel = read node.
Proof.
  induction rel as [|s up IH] using rev_ind; intros f Hf Hr Hd Hb.
  - destruct Hr as [Hp _]. apply prefix_nil_inv in Hp. subst d.
    apply search_here. assumption.
  - destruct (decide (d = up ++ [s])) as [->|Hne].
    { apply search_here. assumption. }
    assert (Hn : fs !! package_json (up ++ [s]) = None).
    { apply Hb; [apply Hr|reflexivity|congruence]. }
    rewrite length_app in Hf. simpl in Hf.
    destruct f as [|f]; [lia|]. rewrite search_step by assumption.
    destruct (reached_down _ _ _ _ Hr Hne) as [Hr' Hh].
    rewrite (bool_decide_eq_true_2 _ Hh).
    apply IH; [lia|assumption|assumption|].
    eapply none_between_down. eassumption.
Qed.

(** X16. Whenever the search comes to a directory with a [package.json],
    having passed none below it, [getPackageJSON] reads that one and looks
    no further up: it gives the parsed text, and throws when the text is no
    JSON or the name is that of a directory, whatever the directories above
    hold. *)
Theorem package_nearest_is_read
    (fs : Files) (home : Path) (rel : Location) (d : Path) (node : Node) :
  reached home d (to_path rel) ->
  fs !! package_json d = Some node ->
  none_between fs d (to_path rel) ->
  getPackageJSON fs home rel = read node.
Proof.
  intros Hr Hd Hb. unfold getPackageJSON.
  apply (search_nearest fs home d node); auto.
Qed.

Lemma search_nothing (fs : Files) (home : Path) (rel : Path) :
  forall f, (length rel <= f)%nat ->
    (forall d, reached home d rel -> fs !! package_json d = None) ->
    search fs home f rel = Undefined.
Proof.
  induction rel as [|s up IH] using rev_ind; intros f Hf Hall.
  - apply search_root, Hall, reached_self.
  - rewrite length_app in Hf. simpl in Hf. destruct f as [|f]; [lia|].
    rewrite search_step by apply Hall, reached_self.
    match goal with
    | |- (if ?b then _ else _) = _ => destruct b eqn:Hh; [|reflexivity]
    end.
    apply bool_decide_eq_true_1 in Hh. apply IH; [lia|].
    intros d Hr. apply Hall, reached_up; assumption.
Qed.

(** X17. The search ends below the home directory and at the root: when no
    directory it comes to has a [package.json], [getPackageJSON] gives
    [undefined], also when the home directory, which a search from below
    does not come to, has one. *)
Theorem package_search_bounded
    (fs : Files) (home : Path) (rel : Location) :
  (forall d, reached home d (to_path rel) -> fs !! package_json d = None) ->
  getPackageJSON fs home rel = Undefined.
Proof.
  intros Hall. unfold getPackageJSON. apply search_nothing; auto.
Qed.

Lemma package_found_is_nearest_witness :
  exists d text,
    reached ["home"; "u"]
            d (to_path (PathName ["home"; "u"; "proj"; "src"])) /\
    project_files !! package_json d = Some (File text) /\
    JSON_parse text = Some (JObj [("name", JStr "proj")]) /\
    none_between project_files d
                 (to_path (PathName ["home"; "u"; "proj"; "src"])).
Proof.
  apply (package_found_is_nearest project_files ["home"; "u"]
           (PathName ["home"; "u"; "proj"; "src"])).
  vm_compute. reflexivity.
Defined.

Lemma package_nearest_is_read_witness :
  getPackageJSON project_files ["home"; "u"]
                 (FileURL ["home"; "u"; "proj"; "src"]) =
  read (File ("{" +:+ quoted "name" +:+ ":" +:+ quoted "proj" +:+ "}")).
Proof.
  apply (package_nearest_is_read project_files ["home"; "u"]
           (FileURL ["home"; "u"; "proj"; "src"]) ["home"; "u"; "proj"]).
  - apply (reached_up _ _ ["home"; "u"; "proj"] "src");
      [apply reached_self|discriminate].
  - vm_compute. reflexivity.
  - apply (none_between_up _ _ ["home"; "u"; "proj"] "src");
      [apply none_between_self|vm_compute; reflexivity].
Defined.

Lemma package_search_bounded_witness :
  getPackageJSON bare_files ["home"; "u"]
                 (PathName ["home"; "u"; "proj"; "src"]) = Undefined.
Proof.
  apply (package_search_bounded bare_files ["home"; "u"]
           (PathName ["home"; "u"; "proj"; "src"])).
  intros d Hr. simpl in Hr.
  destruct (decide (d = ["home"; "u"; "proj"] ++ ["src"])) as [->|H1];
    [vm_compute; reflexivity|].
  destruct (reached_down _ _ ["home"; "u"; "proj"] "src" Hr H1) as [Hr' _].
  destruct (decide (d = ["home"; "u"] ++ ["proj"])) as [->|H2];
    [vm_compute; reflexivity|].
  destruct (reached_down _ _ ["home"; "u"] "proj" Hr' H2) as [_ Hh].
  destruct Hh. reflexivity.
Defined.

(** Started in the home directory itself, the search reads the description
    there. *)
Example package_of_home :
  getPackageJSON bare_files ["home"; "u"] (PathName ["home"; "u"]) =
    Found (JObj []) /\
  getPackageJSON bare_files ["home"; "u"] (PathName ["home"; "u"; "proj"]) =
    Undefined /\
  getPackageJSON bare_files ["home"; "u"] (PathName ["srv"; "app"]) =
    Undefined.
Proof. vm_compute. auto. Qed.

End PackageFacts.
